(** * Caesar cipher: encoder, decoder and the two cipher breakers

    A shallow embedding of [Cipher/go.go] and [Decipher/go.go].

    Go strings are byte sequences; a [range] loop over a string decodes it
    as UTF-8 and yields runes, and [strings.Builder.WriteRune] writes the
    UTF-8 encoding of a rune.  Strings are therefore [string]s of bytes
    ([ascii]), runes are integers, and the decoding and encoding steps are
    explicit.  [float64] values are IEEE 754 binary64 numbers, taken from
    the [SpecFloat] model of the standard library. *)

From Stdlib Require Import ZArith Ascii String List Bool Lia.
From Stdlib Require Import SpecFloat.
From stdpp Require Import base option list gmap strings sorting.

Local Open Scope Z_scope.

(** ** Bytes, runes and UTF-8 (Go's [unicode/utf8]) *)

Module utf8.

(** Go's [rune] is [int32]; the runes of the program stay far from its
    bounds, and are integers here. *)
Abbreviation rune := Z (only parsing).

Definition RuneError : rune := 0xFFFD.
Definition MaxRune : rune := 0x10FFFF.
Definition RuneSelf : Z := 0x80.

(** [s[i]] read as a number, and the conversion [byte(x)], which keeps the
    low eight bits. *)
Definition byte_val (b : ascii) : Z := Z.of_N (N_of_ascii b).
Definition byte_of (x : Z) : ascii := ascii_of_N (Z.to_N (x mod 256)).

(** What the first byte of a sequence announces (the table [first] together
    with [acceptRanges]): a one-byte rune, a sequence of [size] bytes whose
    second byte must lie in [lo..hi], or an invalid first byte. *)
Inductive first_info :=
  | OneByte
  | Multi (size : Z) (lo hi : Z)
  | BadFirst.

Definition first (s0 : Z) : first_info :=
  if s0 <? 0x80 then OneByte
  else if s0 <? 0xC2 then BadFirst
  else if s0 <=? 0xDF then Multi 2 0x80 0xBF
  else if s0 =? 0xE0 then Multi 3 0xA0 0xBF
  else if s0 =? 0xED then Multi 3 0x80 0x9F
  else if s0 <=? 0xEF then Multi 3 0x80 0xBF
  else if s0 =? 0xF0 then Multi 4 0x90 0xBF
  else if s0 <=? 0xF3 then Multi 4 0x80 0xBF
  else if s0 =? 0xF4 then Multi 4 0x80 0x8F
  else BadFirst.

(** A continuation byte lies in [locb..hicb]. *)
Definition cont (b : Z) : bool := (0x80 <=? b) && (b <=? 0xBF).

(** The runes of a string, each with the bytes it was decoded from: one
    [DecodeRuneInString] per step.  An invalid or truncated sequence yields
    [RuneError] and consumes a single byte ([bad]).  The masks and shifts
    of the Go code are written with [mod] and multiplication. *)
Fixpoint chunks (s : string) : list (rune * string) :=
  match s with
  | EmptyString => []
  | String c0 s1 =>
    let s0 := byte_val c0 in
    let bad (_ : unit) := (RuneError, String c0 EmptyString) :: chunks s1 in
    match first s0 with
    | OneByte => (s0, String c0 EmptyString) :: chunks s1
    | BadFirst => bad ()
    | Multi sz lo hi =>
      match s1 with
      | EmptyString => bad ()
      | String c1 s2 =>
        let b1 := byte_val c1 in
        if (b1 <? lo) || (hi <? b1) then bad ()
        else if sz <=? 2 then
          ((s0 mod 32) * 64 + b1 mod 64, String c0 (String c1 EmptyString))
            :: chunks s2
        else
          match s2 with
          | EmptyString => bad ()
          | String c2 s3 =>
            let b2 := byte_val c2 in
            if negb (cont b2) then bad ()
            else if sz <=? 3 then
              ((s0 mod 16) * 4096 + (b1 mod 64) * 64 + b2 mod 64,
               String c0 (String c1 (String c2 EmptyString))) :: chunks s3
            else
              match s3 with
              | EmptyString => bad ()
              | String c3 s4 =>
                let b3 := byte_val c3 in
                if negb (cont b3) then bad ()
                else
                  ((s0 mod 8) * 262144 + (b1 mod 64) * 4096
                     + (b2 mod 64) * 64 + b3 mod 64,
                   String c0 (String c1 (String c2 (String c3 EmptyString))))
                    :: chunks s4
              end
          end
      end
    end
  end.

(** The sequence of runes a [range] loop over [s] visits. *)
Definition runes (s : string) : list rune := (chunks s).*1.

(** [AppendRune]: the UTF-8 encoding of a rune; surrogates and values out
    of range are encoded as [RuneError]. *)
Definition encode3 (r : rune) : string :=
  String (byte_of (0xE0 + r / 4096))
    (String (byte_of (0x80 + (r / 64) mod 64))
      (String (byte_of (0x80 + r mod 64)) EmptyString)).

Definition encode_rune (r : rune) : string :=
  if (0 <=? r) && (r <=? 0x7F) then String (byte_of r) EmptyString
  else if (0 <=? r) && (r <=? 0x7FF) then
    String (byte_of (0xC0 + r / 64))
      (String (byte_of (0x80 + r mod 64)) EmptyString)
  else if (r <? 0) || (MaxRune <? r) || ((0xD800 <=? r) && (r <=? 0xDFFF))
  then encode3 RuneError
  else if r <=? 0xFFFF then encode3 r
  else
    String (byte_of (0xF0 + r / 262144))
      (String (byte_of (0x80 + (r / 4096) mod 64))
        (String (byte_of (0x80 + (r / 64) mod 64))
          (String (byte_of (0x80 + r mod 64)) EmptyString))).

(** A [strings.Builder] is the string written so far. *)
Definition WriteRune (b : string) (r : rune) : string :=
  String.append b (encode_rune r).

Definition string_of_runes (rs : list rune) : string :=
  fold_left WriteRune rs EmptyString.

(** [utf8.ValidString]: no decoding step fails. *)
Definition valid_chunk (c : rune * string) : bool :=
  negb ((c.1 =? RuneError) && (String.length c.2 =? 1)%nat).

Definition ValidString (s : string) : bool := forallb valid_chunk (chunks s).

(** The Unicode scalar values: what a decoding step can yield. *)
Definition scalar (r : rune) : Prop :=
  0 <= r <= MaxRune /\ ~ (0xD800 <= r <= 0xDFFF).

(** One decoding step: [r] is read from the bytes [bs], which either are
    its encoding or are a single byte that starts no valid sequence. *)
Definition decodes (r : rune) (bs : string) : Prop :=
  scalar r /\
  (encode_rune r = bs \/
   (r = RuneError /\ exists c, bs = String c EmptyString)).

End utf8.

Import utf8.

(** A rune literal such as ['A']. *)
Definition char (c : ascii) : rune := byte_val c.
Arguments char c%_char.

(** [len(s)]: the number of bytes of [s]. *)
Definition len (s : string) : Z := Z.of_nat (String.length s).

(** ** [float64]: IEEE 754 binary64 *)

Module float64.

Definition prec : Z := 53.
Definition emax : Z := 1024.

Definition add : spec_float -> spec_float -> spec_float := SFadd prec emax.
Definition div : spec_float -> spec_float -> spec_float := SFdiv prec emax.
Definition ltb : spec_float -> spec_float -> bool := SFltb.
Definition gtb (x y : spec_float) : bool := SFltb y x.

(** The conversion [float64(n)] of an integer, rounding to nearest even. *)
Definition of_int (n : Z) : spec_float := binary_normalize prec emax n 0 false.

(** The constants of the program: [0.0], [1.0], [2.0], [-1.0], and the
    binary64 numbers nearest to [0.1] and [0.25]. *)
Definition c0 : spec_float := S754_zero false.
Definition c1 : spec_float := S754_finite false 4503599627370496 (-52).
Definition c2 : spec_float := S754_finite false 4503599627370496 (-51).
Definition cm1 : spec_float := S754_finite true 4503599627370496 (-52).
Definition c0_1 : spec_float := S754_finite false 7205759403792794 (-56).
Definition c0_25 : spec_float := S754_finite false 4503599627370496 (-54).

(** The values a score can take: a number that is not negative (and not
    [-0], which no addition of the program produces). *)
Definition nonneg (x : spec_float) : Prop :=
  match x with
  | S754_zero false | S754_infinity false | S754_finite false _ _ => True
  | _ => False
  end.

(** The order of such numbers is the lexicographic order of their [key]. *)
Definition key (x : spec_float) : Z * Z * Z :=
  match x with
  | S754_zero _ => (0, 0, 0)
  | S754_finite _ m e => (1, e, Zpos m)
  | S754_infinity _ => (2, 0, 0)
  | S754_nan => (3, 0, 0)
  end.

Definition lex_lt (a b : Z * Z * Z) : Prop :=
  let '(a1, a2, a3) := a in
  let '(b1, b2, b3) := b in
  a1 < b1 \/ (a1 = b1 /\ (a2 < b2 \/ (a2 = b2 /\ a3 < b3))).

(** The location [l] describes the fraction [num / den] that a quotient
    or a shift leaves behind: nothing, or a part below, at or above one
    half. *)
Definition loc_ok (l : location) (num den : Z) : Prop :=
  0 <= num < den /\
  match l with
  | loc_Exact => num = 0
  | loc_Inexact c => 0 < num /\ c = (2 * num ?= den)
  end.

(** [m] shifted left by [k] bits. *)
Definition pshl (m : positive) (k : Z) : positive :=
  match k with
  | Zpos q => Pos.iter xO m q
  | _ => m
  end.

End float64.

(** ** What lies outside the repository

    Three things the program relies on are fixed neither by its source nor,
    for two of them, by the language: the case table of [unicode.ToUpper],
    the order in which [range] visits the entries of a map, and the order
    in which the unstable [sort.Slice] leaves elements that compare equal.
    They are parameters of the development, with the laws Go gives them. *)

(** The local type [letterFreq] of [getFrequencyOrder]. *)
Record letterFreq := { letter : rune; count : Z }.

(** [l] is ordered for [less]: no element should come before an earlier
    one. *)
Definition sorted_by (less : letterFreq -> letterFreq -> bool)
    (l : list letterFreq) : Prop :=
  StronglySorted (fun x y => less y x = false) l.

(** [unicode_ToUpper] agrees with Go on ASCII; [map_range m] lists the
    entries of [m] in some order; [sort_Slice less l] is a permutation of
    [l], ordered when [less] compares counts. *)
Class Runtime := {
  unicode_ToUpper : rune -> rune;
  map_range : gmap Z Z -> list (Z * Z);
  sort_Slice : (letterFreq -> letterFreq -> bool) ->
               list letterFreq -> list letterFreq;
  unicode_ToUpper_ascii : forall r, 0 <= r < RuneSelf ->
    unicode_ToUpper r =
      if (char "a" <=? r) && (r <=? char "z") then r - 32 else r;
  map_range_perm : forall m, map_range m ≡ₚ map_to_list m;
  sort_Slice_perm : forall less l, sort_Slice less l ≡ₚ l;
  sort_Slice_sorted : forall l,
    sorted_by (fun a b => count b <? count a)
      (sort_Slice (fun a b => count b <? count a) l)
}.

(** ** Go's [unicode] and [strings] packages *)

(** [unicode.IsSpace]. *)
Definition IsSpace (r : rune) : bool :=
  if r <=? 0xFF then
    (r =? 0x09) || (r =? 0x0A) || (r =? 0x0B) || (r =? 0x0C) || (r =? 0x0D)
    || (r =? 0x20) || (r =? 0x85) || (r =? 0xA0)
  else
    (r =? 0x1680) || ((0x2000 <=? r) && (r <=? 0x200A)) || (r =? 0x2028)
    || (r =? 0x2029) || (r =? 0x202F) || (r =? 0x205F) || (r =? 0x3000).

(** [strings.Map]: every rune of [s] is mapped, runes mapped to a negative
    value are dropped, the others are written out. *)
Definition Map (mapping : rune -> rune) (s : string) : string :=
  string_of_runes (filter (fun r => 0 <= r) (mapping <$> runes s)).

(** [strings.ToUpper].  (On a string of ASCII bytes Go takes a bytewise
    path with the same result.) *)
Definition ToUpper {rt : Runtime} (s : string) : string :=
  Map unicode_ToUpper s.

(** [strings.Fields]: the maximal runs of runes that are not white space,
    as substrings of [s].  [cur] is the field being read, if any. *)
Fixpoint fields_from (cs : list (rune * string)) (cur : option string)
    : list string :=
  match cs with
  | [] => match cur with Some w => [w] | None => [] end
  | (r, bs) :: cs' =>
    if IsSpace r then
      match cur with
      | Some w => w :: fields_from cs' None
      | None => fields_from cs' None
      end
    else
      fields_from cs' (Some (String.append (default EmptyString cur) bs))
  end.

Definition Fields (s : string) : list string := fields_from (chunks s) None.

(** [strings.Count(s, sep)] for a separator of one byte: the number of
    bytes of [s] equal to it. *)
Fixpoint Count (s : string) (sep : ascii) : Z :=
  match s with
  | EmptyString => 0
  | String c s' => (if Ascii.eqb c sep then 1 else 0) + Count s' sep
  end.

(** ** [Cipher/go.go] *)

(** [shift] is an [int], of any size here; Go's [%] is the truncated
    remainder [Z.rem].  The loop runs over the runes of the text and
    writes to the builder [result]. *)
Definition applyCipher (plaintext : string) (shift : Z) : string :=
  let shift := Z.rem shift 26 in
  let shift := if shift <? 0 then shift + 26 else shift in
  fold_left (fun result char_ =>
      if (char "A" <=? char_) && (char_ <=? char "Z") then
        let shifted := char "A" + Z.rem (char_ - char "A" + shift) 26 in
        WriteRune result shifted
      else if (char "a" <=? char_) && (char_ <=? char "z") then
        let shifted := char "a" + Z.rem (char_ - char "a" + shift) 26 in
        WriteRune result shifted
      else
        WriteRune result char_)
    (runes plaintext) EmptyString.

(** ** [Decipher/go.go] *)

(** The letters of English from the most to the least frequent; the
    program declares the variable and does not read it. *)
Definition englishFrequency : string := "ETAOINSHRDLUCMFWYPVBGKJQXZ".

Definition decipherWithShift (ciphertext : string) (shift : Z) : string :=
  let shift := Z.rem shift 26 in
  let shift := if shift <? 0 then shift + 26 else shift in
  let shift := 26 - shift in
  fold_left (fun result char_ =>
      if (char "A" <=? char_) && (char_ <=? char "Z") then
        let shifted := char "A" + Z.rem (char_ - char "A" + shift) 26 in
        WriteRune result shifted
      else if (char "a" <=? char_) && (char_ <=? char "z") then
        let shifted := char "a" + Z.rem (char_ - char "a" + shift) 26 in
        WriteRune result shifted
      else
        WriteRune result char_)
    (runes ciphertext) EmptyString.

(** [freq[char]++] on a map whose missing entries read as zero. *)
Definition incr (freq : gmap Z Z) (k : Z) : gmap Z Z :=
  <[k := default 0 (freq !! k) + 1]> freq.

Definition calculateFrequencies {rt : Runtime} (text : string) : gmap Z Z :=
  fold_left (fun freq char_ =>
      if (char "A" <=? char_) && (char_ <=? char "Z") then incr freq char_
      else freq)
    (runes (ToUpper text)) ∅.

Definition getFrequencyOrder {rt : Runtime} (freq : gmap Z Z) : string :=
  let pairs :=
    fold_left (fun pairs '(letter, count) =>
        pairs ++ [{| letter := letter; count := count |}])
      (map_range freq) [] in
  let pairs := sort_Slice (fun a b => count b <? count a) pairs in
  fold_left (fun result pair => WriteRune result (letter pair))
    pairs EmptyString.

Definition commonWords : gmap string bool :=
  list_to_map
    [("THE", true); ("BE", true); ("TO", true); ("OF", true); ("AND", true);
     ("A", true); ("IN", true); ("THAT", true); ("HAVE", true); ("I", true);
     ("IT", true); ("FOR", true); ("NOT", true); ("ON", true); ("WITH", true);
     ("HE", true); ("AS", true); ("YOU", true); ("DO", true);
     ("AT", true)]%string.

(** The function literal passed to [strings.Map] by the scorer. *)
Definition keepUpper (r : rune) : rune :=
  if (char "A" <=? r) && (r <=? char "Z") then r else -1.

Definition scoreDecipheredText {rt : Runtime} (text : string) : spec_float :=
  let score := float64.c0 in
  let words := Fields (ToUpper text) in
  let score :=
    fold_left (fun score word =>
        let word := Map keepUpper word in
        if default false (commonWords !! word)
        then float64.add score float64.c1 else score)
      words score in
  let spaceCount := Count text " " in
  let spaceRatio :=
    float64.div (float64.of_int spaceCount) (float64.of_int (len text)) in
  if float64.gtb spaceRatio float64.c0_1 && float64.ltb spaceRatio float64.c0_25
  then float64.add score float64.c2 else score.

(** The body shared by the two search loops: the running best
    [(bestScore, bestShift, bestPlaintext)] after trying [shift]. *)
Definition try_shift {rt : Runtime} (ciphertext : string)
    (best : spec_float * Z * string) (shift : Z) : spec_float * Z * string :=
  let '(bestScore, bestShift, bestPlaintext) := best in
  let plaintext := decipherWithShift ciphertext shift in
  let score := scoreDecipheredText plaintext in
  if float64.gtb score bestScore then (score, shift, plaintext)
  else (bestScore, bestShift, bestPlaintext).

Definition breakCipherBruteForce {rt : Runtime} (ciphertext : string)
    : string * Z :=
  let '(bestScore, bestShift, bestPlaintext) :=
    fold_left (try_shift ciphertext) (seqZ 0 26)
      (float64.cm1, 0, EmptyString) in
  (bestPlaintext, bestShift).

(** The function literal passed to [strings.Map] by the frequency search. *)
Definition keepLetters (r : rune) : rune :=
  if ((char "A" <=? r) && (r <=? char "Z"))
     || ((char "a" <=? r) && (r <=? char "z")) then r else -1.

(** The list [potentialShifts] of the frequency search, from the string
    [freqOrder]: the shift that sends its first letter to ['E'], then the
    other shifts in ascending order. *)
Definition potentialShifts_of (freqOrder : string) : list Z :=
  let potentialShifts :=
    match freqOrder with
    | String c _ =>
      let mostCommon := byte_val c in
      let eShift := Z.rem (mostCommon - char "E") 26 in
      let eShift := if eShift <? 0 then eShift + 26 else eShift in
      [] ++ [eShift]
    | EmptyString => []
    end in
  fold_left (fun potentialShifts shift =>
      match potentialShifts with
      | [] => potentialShifts ++ [shift]
      | p0 :: _ =>
        if negb (shift =? p0) then potentialShifts ++ [shift]
        else potentialShifts
      end)
    (seqZ 0 26) potentialShifts.

Definition breakCipherFrequencyAnalysis {rt : Runtime} (ciphertext : string)
    : string * Z :=
  let lettersOnly := Map keepLetters ciphertext in
  if len lettersOnly <? 5 then breakCipherBruteForce ciphertext
  else
    let freq := calculateFrequencies lettersOnly in
    let freqOrder := getFrequencyOrder freq in
    let potentialShifts := potentialShifts_of freqOrder in
    let '(bestScore, bestShift, bestPlaintext) :=
      fold_left (try_shift ciphertext) potentialShifts
        (float64.cm1, 0, EmptyString) in
    (bestPlaintext, bestShift).

(** [main] reads the ciphertext from the standard input, runs the two
    searches and prints what they return; the message it ends with depends
    on the test [bruteForceShift == freqAnalysisShift]. *)
Definition main_same_shift {rt : Runtime} (ciphertext : string) : bool :=
  let '(bruteForceResult, bruteForceShift) :=
    breakCipherBruteForce ciphertext in
  let '(freqAnalysisResult, freqAnalysisShift) :=
    breakCipherFrequencyAnalysis ciphertext in
  bruteForceShift =? freqAnalysisShift.

(** ** Definitions used to state the properties *)

(** The shift after the reduction into [0..25] at the head of the encoder
    and of the decoder, and what their loop body makes of one rune. *)
Definition normalize (shift : Z) : Z :=
  let shift := Z.rem shift 26 in
  if shift <? 0 then shift + 26 else shift.

Definition shift_rune (shift : Z) (char_ : rune) : rune :=
  if (char "A" <=? char_) && (char_ <=? char "Z") then
    char "A" + Z.rem (char_ - char "A" + shift) 26
  else if (char "a" <=? char_) && (char_ <=? char "z") then
    char "a" + Z.rem (char_ - char "a" + shift) 26
  else char_.

(** The ASCII letters. *)
Definition isUpper (r : rune) : bool := (char "A" <=? r) && (r <=? char "Z").
Definition isLower (r : rune) : bool := (char "a" <=? r) && (r <=? char "z").
Definition isLetter (r : rune) : bool := isUpper r || isLower r.

(** The number of characters (runes) of a text. *)
Definition char_count (text : string) : Z := Z.of_nat (length (runes text)).

(** The letters of a text: the runes in [A-Z] or [a-z]. *)
Definition letter_count (text : string) : Z :=
  Z.of_nat (length (filter (fun r => isLetter r = true) (runes text))).

(** The common-word set, and a token with every rune that is not an upper
    case letter removed. *)
Definition common_word_set : list string :=
  ["THE"; "BE"; "TO"; "OF"; "AND"; "A"; "IN"; "THAT"; "HAVE"; "I";
   "IT"; "FOR"; "NOT"; "ON"; "WITH"; "HE"; "AS"; "YOU"; "DO"; "AT"]%string.

Definition strip_nonletters (token : string) : string :=
  string_of_runes (filter (fun r => isUpper r = true) (runes token)).

Definition is_common (token : string) : bool :=
  bool_decide (strip_nonletters token ∈ common_word_set).

(** The number of tokens of the upper-cased text that are common words. *)
Definition common_tokens {rt : Runtime} (text : string) : Z :=
  Z.of_nat (length (filter (fun w => is_common w = true)
                      (Fields (ToUpper text)))).

(** The space bonus as a condition on integers: the ratio of [spaces] to
    [total] lies strictly between one tenth and one quarter.  It is false
    when [total] is zero. *)
Definition space_bonus (spaces total : Z) : bool :=
  (total <? 10 * spaces) && (4 * spaces <? total).

(** The score as a formula: one point per common token, and two more when
    the number of spaces and [total text] earn the bonus. *)
Definition score_by {rt : Runtime} (total : string -> Z) (text : string)
    : spec_float :=
  float64.of_int
    (common_tokens text
     + if space_bonus (Count text " ") (total text) then 2 else 0).

(** The score of the candidate for [shift]. *)
Definition score_at {rt : Runtime} (ciphertext : string) (shift : Z)
    : spec_float :=
  scoreDecipheredText (decipherWithShift ciphertext shift).

(** [k] is the first element of [l] with the greatest score: the elements
    before it score strictly less, those after it score no more. *)
Definition first_max (sc : Z -> spec_float) (l : list Z) (k : Z) : Prop :=
  exists l1 l2, l = l1 ++ k :: l2 /\
    (forall j, j ∈ l1 -> float64.ltb (sc j) (sc k) = true) /\
    (forall j, j ∈ l2 -> float64.ltb (sc k) (sc j) = false).

(** The candidate the search loops compute for [shift]. *)
Definition candidate {rt : Runtime} (ciphertext : string) (shift : Z)
    : spec_float * Z * string :=
  (score_at ciphertext shift, shift, decipherWithShift ciphertext shift).

(** What one rune of the input may become: a letter keeps its case, any
    other rune is unchanged. *)
Definition same_shape (r r' : rune) : Prop :=
  if isUpper r then isUpper r' = true
  else if isLower r then isLower r' = true
  else r' = r.

(** What [encode_rune] makes of a rune that is not a scalar value. *)
Definition sanitize (r : rune) : rune :=
  if (r <? 0) || (MaxRune <? r) || ((0xD800 <=? r) && (r <=? 0xDFFF))
  then RuneError else r.

(** ** A runtime

    An instance of the parameters: a case table that knows the ASCII
    letters only, maps visited in the order of their list of entries, and
    insertion sort. *)
Definition ascii_ToUpper (r : rune) : rune :=
  if (char "a" <=? r) && (r <=? char "z") then r - 32 else r.

(** The order [sort.Slice] is called with: falling counts. *)
Abbreviation by_count := (fun a b : letterFreq => count b <? count a).

Fixpoint insert_by (less : letterFreq -> letterFreq -> bool) (x : letterFreq)
    (l : list letterFreq) : list letterFreq :=
  match l with
  | [] => [x]
  | y :: l' => if less y x then y :: insert_by less x l' else x :: y :: l'
  end.

Definition insertion_sort (less : letterFreq -> letterFreq -> bool)
    (l : list letterFreq) : list letterFreq :=
  fold_right (insert_by less) [] l.

(** ** Definitions used to state further properties *)

(** The number of runes of [rs] equal to [k]. *)
Definition occurrences (k : rune) (rs : list rune) : Z :=
  Z.of_nat (length (filter (fun r => r = k) rs)).

(** The sum of the counts a table holds for the letters [A] to [Z]. *)
Definition total_count (freq : gmap Z Z) : Z :=
  foldr (fun k acc => default 0 (freq !! k) + acc) 0 (seqZ (char "A") 26).

(** A text of ASCII bytes. *)
Fixpoint isASCII (s : string) : bool :=
  match s with
  | EmptyString => true
  | String c s' => (byte_val c <? RuneSelf) && isASCII s'
  end.

(** The upper case of a text of ASCII bytes, byte by byte. *)
Fixpoint upper_bytes (s : string) : string :=
  match s with
  | EmptyString => EmptyString
  | String c s' =>
    String (byte_of (ascii_ToUpper (byte_val c))) (upper_bytes s')
  end.

(** * Facts *)

(** ** UTF-8: one decoding step *)

(** Arithmetic with division and remainder by constants. *)
Ltac zdiv := Z.to_euclidean_division_equations; lia.

(** Case analysis on every comparison of the goal. *)
Ltac split_tests :=
  repeat match goal with
  | |- context [?a <=? ?b] => destruct (Z.leb_spec a b)
  | |- context [?a <? ?b] => destruct (Z.ltb_spec a b)
  | |- context [?a =? ?b] => destruct (Z.eqb_spec a b)
  end; simpl.

Ltac byte_eqs :=
  repeat match goal with
  | |- String _ _ = String _ _ => f_equal
  | |- byte_of _ = byte_of _ => f_equal; zdiv
  end.

(** Bytes and their values. *)
Lemma byte_val_range c : 0 <= byte_val c < 256.
Proof.
  unfold byte_val. pose proof (N_ascii_bounded c). lia.
Qed.

Lemma byte_val_of x : 0 <= x < 256 -> byte_val (byte_of x) = x.
Proof.
  intros Hx. unfold byte_val, byte_of.
  rewrite Z.mod_small by lia.
  rewrite N_ascii_embedding by lia. lia.
Qed.

Lemma byte_of_val c : byte_of (byte_val c) = c.
Proof.
  unfold byte_val, byte_of. pose proof (N_ascii_bounded c).
  rewrite Z.mod_small by lia. rewrite N2Z.id. apply ascii_N_embedding.
Qed.

(** What the classes of first bytes are. *)
Lemma first_Multi s0 sz lo hi :
  first s0 = Multi sz lo hi ->
  (sz = 2 /\ 0xC2 <= s0 <= 0xDF /\ lo = 0x80 /\ hi = 0xBF) \/
  (sz = 3 /\ 0xE0 <= s0 <= 0xEF /\
     lo = (if s0 =? 0xE0 then 0xA0 else 0x80) /\
     hi = (if s0 =? 0xED then 0x9F else 0xBF)) \/
  (sz = 4 /\ 0xF0 <= s0 <= 0xF4 /\
     lo = (if s0 =? 0xF0 then 0x90 else 0x80) /\
     hi = (if s0 =? 0xF4 then 0x8F else 0xBF)).
Proof.
  unfold first. split_tests; intros [= <- <- <-]; lia.
Qed.

Lemma first_OneByte s0 : first s0 = OneByte -> s0 < 0x80.
Proof. unfold first. split_tests; intros [=]; lia. Qed.

(** The value decoded from a valid sequence of one to four bytes is a
    scalar value, and its encoding is that sequence. *)
Lemma encode_1 s0 : 0 <= s0 < 0x80 ->
  scalar s0 /\ encode_rune s0 = String (byte_of s0) EmptyString.
Proof.
  intros H. split; [unfold scalar, MaxRune; lia|].
  unfold encode_rune. split_tests; try lia; reflexivity.
Qed.

Lemma encode_2 s0 b1 r :
  0xC2 <= s0 <= 0xDF -> 0x80 <= b1 <= 0xBF ->
  r = (s0 mod 32) * 64 + b1 mod 64 ->
  scalar r /\
  encode_rune r = String (byte_of s0) (String (byte_of b1) EmptyString).
Proof.
  intros H0 H1 Hr.
  assert (0x80 <= r <= 0x7FF) by zdiv.
  split; [unfold scalar, MaxRune; lia|].
  unfold encode_rune. split_tests; try lia; byte_eqs.
Qed.

Lemma encode_3 s0 b1 b2 r :
  0xE0 <= s0 <= 0xEF ->
  (if s0 =? 0xE0 then 0xA0 else 0x80) <= b1 <=
    (if s0 =? 0xED then 0x9F else 0xBF) ->
  0x80 <= b2 <= 0xBF ->
  r = (s0 mod 16) * 4096 + (b1 mod 64) * 64 + b2 mod 64 ->
  scalar r /\
  encode_rune r =
    String (byte_of s0) (String (byte_of b1) (String (byte_of b2) EmptyString)).
Proof.
  intros H0 H1 H2 Hr.
  assert (0x80 <= b1 <= 0xBF) by (revert H1; split_tests; lia).
  assert (0x800 <= r <= 0xFFFF /\ ~ (0xD800 <= r <= 0xDFFF))
    by (revert H1; split_tests; zdiv).
  assert (r / 64 = (s0 mod 16) * 64 + b1 mod 64) as E1 by zdiv.
  split; [unfold scalar, MaxRune; lia|].
  unfold encode_rune, MaxRune. split_tests; try lia; unfold encode3;
    rewrite ?E1; byte_eqs.
Qed.

Lemma encode_4 s0 b1 b2 b3 r :
  0xF0 <= s0 <= 0xF4 ->
  (if s0 =? 0xF0 then 0x90 else 0x80) <= b1 <=
    (if s0 =? 0xF4 then 0x8F else 0xBF) ->
  0x80 <= b2 <= 0xBF -> 0x80 <= b3 <= 0xBF ->
  r = (s0 mod 8) * 262144 + (b1 mod 64) * 4096 + (b2 mod 64) * 64 + b3 mod 64 ->
  scalar r /\
  encode_rune r =
    String (byte_of s0) (String (byte_of b1)
      (String (byte_of b2) (String (byte_of b3) EmptyString))).
Proof.
  intros H0 H1 H2 H3 Hr.
  assert (0x80 <= b1 <= 0xBF) by (revert H1; split_tests; lia).
  assert (0x10000 <= r <= 0x10FFFF)
    by (revert H1; split_tests; zdiv).
  assert (r / 64 = (s0 mod 8) * 4096 + (b1 mod 64) * 64 + b2 mod 64)
    as E1 by zdiv.
  assert (r / 4096 = (s0 mod 8) * 64 + b1 mod 64) as E2 by zdiv.
  split; [unfold scalar, MaxRune; lia|].
  unfold encode_rune, MaxRune. split_tests; try lia;
    rewrite ?E1, ?E2; byte_eqs.
Qed.

Lemma scalar_RuneError : scalar RuneError.
Proof. unfold scalar, RuneError, MaxRune. lia. Qed.

Lemma decodes_bad c : decodes RuneError (String c EmptyString).
Proof. split; [apply scalar_RuneError|]. right. eauto. Qed.

(** A string that is not empty starts with one decoding step. *)
Lemma chunks_step c0 s1 :
  exists r bs rest,
    chunks (String c0 s1) = (r, bs) :: chunks rest /\
    String c0 s1 = String.append bs rest /\ decodes r bs.
Proof.
  pose proof (byte_val_range c0) as R0.
  assert (Bad : exists r bs rest,
    (RuneError, String c0 EmptyString) :: chunks s1 = (r, bs) :: chunks rest /\
    String c0 s1 = String.append bs rest /\ decodes r bs).
  { exists RuneError, (String c0 EmptyString), s1.
    split; [reflexivity|]. split; [reflexivity|]. apply decodes_bad. }
  cbn [chunks].
  destruct (first (byte_val c0)) as [|sz lo hi|] eqn:F; [| |exact Bad].
  { apply first_OneByte in F.
    destruct (encode_1 (byte_val c0)) as [Hs He]; [lia|].
    exists (byte_val c0), (String c0 EmptyString), s1.
    split; [reflexivity|]. split; [reflexivity|]. split; [exact Hs|].
    left. rewrite He, byte_of_val. reflexivity. }
  apply first_Multi in F.
  destruct s1 as [|c1 s2]; [exact Bad|].
  pose proof (byte_val_range c1) as R1.
  destruct (Z.ltb_spec (byte_val c1) lo); [exact Bad|].
  destruct (Z.ltb_spec hi (byte_val c1)); [exact Bad|]. cbn [orb].
  destruct (Z.leb_spec sz 2).
  { destruct F as [(-> & F0 & -> & ->)|[(-> & _)|(-> & _)]]; try lia.
    edestruct (encode_2 (byte_val c0) (byte_val c1)) as [Hs He];
      [exact F0|lia|reflexivity|].
    eexists _, _, s2. split; [reflexivity|]. split; [reflexivity|].
    split; [exact Hs|]. left. rewrite He, !byte_of_val. reflexivity. }
  destruct s2 as [|c2 s3]; [exact Bad|].
  pose proof (byte_val_range c2) as R2.
  unfold cont.
  destruct (Z.leb_spec 0x80 (byte_val c2)); [|exact Bad].
  destruct (Z.leb_spec (byte_val c2) 0xBF); [|exact Bad]. cbn [andb negb].
  destruct (Z.leb_spec sz 3).
  { destruct F as [(-> & _)|[(-> & F0 & -> & ->)|(-> & _)]]; try lia.
    edestruct (encode_3 (byte_val c0) (byte_val c1) (byte_val c2))
      as [Hs He]; [exact F0|lia|lia|reflexivity|].
    eexists _, _, s3. split; [reflexivity|]. split; [reflexivity|].
    split; [exact Hs|]. left. rewrite He, !byte_of_val. reflexivity. }
  destruct s3 as [|c3 s4]; [exact Bad|].
  pose proof (byte_val_range c3) as R3.
  destruct (Z.leb_spec 0x80 (byte_val c3)); [|exact Bad].
  destruct (Z.leb_spec (byte_val c3) 0xBF); [|exact Bad]. cbn [andb negb].
  destruct F as [(-> & _)|[(-> & _)|(-> & F0 & -> & ->)]]; try lia.
  edestruct (encode_4 (byte_val c0) (byte_val c1) (byte_val c2) (byte_val c3))
    as [Hs He]; [exact F0|lia|lia|lia|reflexivity|].
  eexists _, _, s4. split; [reflexivity|]. split; [reflexivity|].
  split; [exact Hs|]. left. rewrite He, !byte_of_val. reflexivity.
Qed.

Lemma encode_rune_nonempty r : encode_rune r <> EmptyString.
Proof. unfold encode_rune, encode3. split_tests; discriminate. Qed.

Lemma decodes_length r bs : decodes r bs -> (1 <= String.length bs)%nat.
Proof.
  intros [_ [<-|(_ & c & ->)]]; [|simpl; lia].
  pose proof (encode_rune_nonempty r).
  destruct (encode_rune r); [congruence|simpl; lia].
Qed.

Lemma length_append (s1 s2 : string) :
  String.length (String.append s1 s2)
    = (String.length s1 + String.length s2)%nat.
Proof.
  induction s1 as [|c s1 IH]; simpl; [reflexivity|]. rewrite IH. reflexivity.
Qed.

(** Induction on the decoding steps of a string. *)
Lemma chunks_ind (P : string -> list (rune * string) -> Prop) :
  P EmptyString [] ->
  (forall r bs rest, decodes r bs -> P rest (chunks rest) ->
     P (String.append bs rest) ((r, bs) :: chunks rest)) ->
  forall s, P s (chunks s).
Proof.
  intros Hnil Hstep s.
  remember (String.length s) as n eqn:Hn.
  revert s Hn. induction n as [n IH] using lt_wf_ind. intros s Hn.
  destruct s as [|c0 s1]; [exact Hnil|].
  destruct (chunks_step c0 s1) as (r & bs & rest & Hc & Hs & Hd).
  rewrite Hc, Hs. apply Hstep; [exact Hd|].
  apply (IH (String.length rest)); [|reflexivity].
  apply decodes_length in Hd. subst n.
  rewrite Hs, length_append. lia.
Qed.

Lemma append_String c s t :
  String.append (String c s) t = String c (String.append s t).
Proof. reflexivity. Qed.

Lemma append_empty t : String.append EmptyString t = t.
Proof. reflexivity. Qed.

Lemma first_1 s0 : s0 < 0x80 -> first s0 = OneByte.
Proof. intros. unfold first. split_tests; try lia; reflexivity. Qed.

Lemma first_2 s0 : 0xC2 <= s0 <= 0xDF -> first s0 = Multi 2 0x80 0xBF.
Proof. intros. unfold first. split_tests; try lia; reflexivity. Qed.

Lemma first_3 s0 : 0xE0 <= s0 <= 0xEF ->
  first s0 = Multi 3 (if s0 =? 0xE0 then 0xA0 else 0x80)
                     (if s0 =? 0xED then 0x9F else 0xBF).
Proof. intros. unfold first. split_tests; try lia; reflexivity. Qed.

Lemma first_4 s0 : 0xF0 <= s0 <= 0xF4 ->
  first s0 = Multi 4 (if s0 =? 0xF0 then 0x90 else 0x80)
                     (if s0 =? 0xF4 then 0x8F else 0xBF).
Proof. intros. unfold first. split_tests; try lia; reflexivity. Qed.


(** The decoding step on a valid sequence of each length. *)
Lemma chunks_1 c0 rest :
  byte_val c0 < 0x80 ->
  chunks (String c0 rest) = (byte_val c0, String c0 EmptyString) :: chunks rest.
Proof. intros H. cbn [chunks]. rewrite first_1 by lia. reflexivity. Qed.

Lemma chunks_2 c0 c1 rest :
  0xC2 <= byte_val c0 <= 0xDF -> 0x80 <= byte_val c1 <= 0xBF ->
  chunks (String c0 (String c1 rest)) =
    ((byte_val c0 mod 32) * 64 + byte_val c1 mod 64,
     String c0 (String c1 EmptyString)) :: chunks rest.
Proof.
  intros H0 H1. cbn [chunks]. rewrite first_2 by lia.
  destruct (Z.ltb_spec (byte_val c1) 0x80); [lia|].
  destruct (Z.ltb_spec 0xBF (byte_val c1)); [lia|]. reflexivity.
Qed.

Lemma chunks_3 c0 c1 c2 rest :
  0xE0 <= byte_val c0 <= 0xEF ->
  (if byte_val c0 =? 0xE0 then 0xA0 else 0x80) <= byte_val c1 <=
    (if byte_val c0 =? 0xED then 0x9F else 0xBF) ->
  0x80 <= byte_val c2 <= 0xBF ->
  chunks (String c0 (String c1 (String c2 rest))) =
    ((byte_val c0 mod 16) * 4096 + (byte_val c1 mod 64) * 64
       + byte_val c2 mod 64,
     String c0 (String c1 (String c2 EmptyString))) :: chunks rest.
Proof.
  intros H0 H1 H2. cbn [chunks]. rewrite first_3 by lia.
  destruct (Z.ltb_spec (byte_val c1)
              (if byte_val c0 =? 0xE0 then 0xA0 else 0x80));
    [lia|].
  destruct (Z.ltb_spec (if byte_val c0 =? 0xED then 0x9F else 0xBF)
              (byte_val c1));
    [lia|].
  unfold cont.
  destruct (Z.leb_spec 0x80 (byte_val c2)); [|lia].
  destruct (Z.leb_spec (byte_val c2) 0xBF); [|lia]. reflexivity.
Qed.

Lemma chunks_4 c0 c1 c2 c3 rest :
  0xF0 <= byte_val c0 <= 0xF4 ->
  (if byte_val c0 =? 0xF0 then 0x90 else 0x80) <= byte_val c1 <=
    (if byte_val c0 =? 0xF4 then 0x8F else 0xBF) ->
  0x80 <= byte_val c2 <= 0xBF -> 0x80 <= byte_val c3 <= 0xBF ->
  chunks (String c0 (String c1 (String c2 (String c3 rest)))) =
    ((byte_val c0 mod 8) * 262144 + (byte_val c1 mod 64) * 4096
       + (byte_val c2 mod 64) * 64 + byte_val c3 mod 64,
     String c0 (String c1 (String c2 (String c3 EmptyString)))) :: chunks rest.
Proof.
  intros H0 H1 H2 H3. cbn [chunks]. rewrite first_4 by lia.
  destruct (Z.ltb_spec (byte_val c1)
              (if byte_val c0 =? 0xF0 then 0x90 else 0x80));
    [lia|].
  destruct (Z.ltb_spec (if byte_val c0 =? 0xF4 then 0x8F else 0xBF)
              (byte_val c1));
    [lia|].
  unfold cont.
  destruct (Z.leb_spec 0x80 (byte_val c2)); [|lia].
  destruct (Z.leb_spec (byte_val c2) 0xBF); [|lia].
  destruct (Z.leb_spec 0x80 (byte_val c3)); [|lia].
  destruct (Z.leb_spec (byte_val c3) 0xBF); [|lia]. reflexivity.
Qed.
(** Decoding the encoding of a scalar value gives it back. *)
Lemma chunks_encode r rest :
  scalar r ->
  chunks (String.append (encode_rune r) rest)
    = (r, encode_rune r) :: chunks rest.
Proof.
  unfold scalar, MaxRune. intros [Hr Hs].
  unfold encode_rune, MaxRune, encode3.
  destruct (Z.leb_spec 0 r); [|lia]. cbn [andb].
  destruct (Z.leb_spec r 0x7F).
  { rewrite append_String, append_empty.
    rewrite chunks_1; rewrite byte_val_of by lia; [reflexivity|lia]. }
  destruct (Z.leb_spec r 0x7FF).
  { rewrite !append_String, append_empty.
    assert (0xC2 <= 0xC0 + r / 64 <= 0xDF) by zdiv.
    assert (0x80 <= 0x80 + r mod 64 <= 0xBF) by zdiv.
    rewrite chunks_2; rewrite !byte_val_of by lia; try lia.
    f_equal. f_equal. zdiv. }
  destruct (Z.ltb_spec r 0); [lia|].
  destruct (Z.ltb_spec 0x10FFFF r); [lia|]. cbn [orb].
  assert (0x80 <= 0x80 + (r / 4096) mod 64 <= 0xBF) by zdiv.
  assert (0x80 <= 0x80 + (r / 64) mod 64 <= 0xBF) by zdiv.
  assert (0x80 <= 0x80 + r mod 64 <= 0xBF) by zdiv.
  assert (((0xD800 <=? r) && (r <=? 0xDFFF)) = false) as ->
    by (destruct (Z.leb_spec 0xD800 r), (Z.leb_spec r 0xDFFF); simpl; lia).
  destruct (Z.leb_spec r 0xFFFF).
  { rewrite !append_String, append_empty.
    assert (0xE0 <= 0xE0 + r / 4096 <= 0xEF) by zdiv.
    rewrite chunks_3; rewrite !byte_val_of by lia; try lia.
    - f_equal. f_equal. zdiv.
    - destruct (Z.eqb_spec (0xE0 + r / 4096) 0xE0),
        (Z.eqb_spec (0xE0 + r / 4096) 0xED); zdiv. }
  rewrite !append_String, append_empty.
  assert (0xF0 <= 0xF0 + r / 262144 <= 0xF4) by zdiv.
  rewrite chunks_4; rewrite !byte_val_of by lia; try lia.
  - f_equal. f_equal. zdiv.
  - destruct (Z.eqb_spec (0xF0 + r / 262144) 0xF0),
      (Z.eqb_spec (0xF0 + r / 262144) 0xF4); zdiv.
Qed.

(** ** Strings as sequences of runes *)

Lemma append_assoc (a b c : string) :
  String.append (String.append a b) c = String.append a (String.append b c).
Proof.
  induction a as [|x a IH]; [reflexivity|].
  rewrite !append_String, IH. reflexivity.
Qed.

Lemma append_empty_r (a : string) : String.append a EmptyString = a.
Proof.
  induction a as [|x a IH]; [reflexivity|].
  rewrite append_String, IH. reflexivity.
Qed.

(** Writing runes to a builder appends their encodings. *)
Lemma fold_WriteRune rs b :
  fold_left WriteRune rs b = String.append b (string_of_runes rs).
Proof.
  unfold string_of_runes. revert b.
  induction rs as [|r rs IH]; intros b; cbn [fold_left].
  - rewrite append_empty_r. reflexivity.
  - rewrite IH, (IH (WriteRune EmptyString r)). unfold WriteRune.
    rewrite append_empty, append_assoc. reflexivity.
Qed.

Lemma string_of_runes_cons r rs :
  string_of_runes (r :: rs)
    = String.append (encode_rune r) (string_of_runes rs).
Proof.
  unfold string_of_runes at 1. cbn [fold_left].
  rewrite fold_WriteRune. reflexivity.
Qed.

(** Decoding what was encoded gives the runes back. *)
Lemma runes_string_of_runes rs :
  Forall scalar rs -> runes (string_of_runes rs) = rs.
Proof.
  induction 1 as [|r rs Hr _ IH]; [reflexivity|].
  rewrite string_of_runes_cons. unfold runes in *.
  rewrite chunks_encode by exact Hr. cbn. rewrite IH. reflexivity.
Qed.

(** Every rune a [range] loop yields is a scalar value. *)
Lemma runes_scalar s : Forall scalar (runes s).
Proof.
  unfold runes.
  apply (chunks_ind (fun _ cs => Forall scalar cs.*1)); [constructor|].
  intros r bs rest [Hr _] IH. cbn. constructor; assumption.
Qed.

(** The chunks of a string are a partition of its bytes. *)
Lemma chunks_concat s :
  fold_right String.append EmptyString (chunks s).*2 = s.
Proof.
  apply (chunks_ind
    (fun s cs => fold_right String.append EmptyString cs.*2 = s));
    [reflexivity|].
  intros r bs rest _ IH. cbn. rewrite IH. reflexivity.
Qed.

(** On a well-formed string, encoding the runes gives the string back. *)
Lemma string_of_runes_runes s :
  ValidString s = true -> string_of_runes (runes s) = s.
Proof.
  unfold ValidString, runes.
  apply (chunks_ind (fun s cs =>
    forallb valid_chunk cs = true -> string_of_runes cs.*1 = s));
    [reflexivity|].
  intros r bs rest [_ Hd] IH. cbn [forallb fmap list_fmap fst].
  intros [Hv Hrest]%andb_prop. rewrite string_of_runes_cons, IH by exact Hrest.
  destruct Hd as [->|(-> & c & ->)]; [reflexivity|].
  discriminate Hv.
Qed.

Lemma ValidString_string_of_runes rs :
  Forall scalar rs -> ValidString (string_of_runes rs) = true.
Proof.
  unfold ValidString.
  induction 1 as [|r rs Hr _ IH]; [reflexivity|].
  rewrite string_of_runes_cons, chunks_encode by exact Hr.
  cbn [forallb]. rewrite IH, andb_true_r.
  unfold valid_chunk. cbn [fst snd].
  destruct (Z.eqb_spec r RuneError) as [->|]; [|reflexivity].
  reflexivity.
Qed.

(** ** The shift transform *)

Ltac chars :=
  change (char "A") with 65 in *; change (char "Z") with 90 in *;
  change (char "a") with 97 in *; change (char "z") with 122 in *;
  change (char "E") with 69 in *.

Ltac zrem := Z.to_euclidean_division_equations; lia.

Lemma normalize_range s : 0 <= normalize s < 26.
Proof. unfold normalize. destruct (Z.ltb_spec (Z.rem s 26) 0); zrem. Qed.

Lemma normalize_mod s : normalize s = s mod 26.
Proof. unfold normalize. destruct (Z.ltb_spec (Z.rem s 26) 0); zrem. Qed.

(** Encoder and decoder map [shift_rune] over the runes of their input. *)
Lemma applyCipher_runes plaintext shift :
  applyCipher plaintext shift =
    string_of_runes (shift_rune (normalize shift) <$> runes plaintext).
Proof.
  unfold applyCipher, string_of_runes. fold (normalize shift).
  generalize (runes plaintext) EmptyString.
  induction l as [|r l IH]; intros b; [reflexivity|].
  cbn [fold_left fmap list_fmap]. rewrite IH. f_equal.
  unfold shift_rune.
  destruct (_ && _); [reflexivity|]. destruct (_ && _); reflexivity.
Qed.

Lemma decipherWithShift_runes ciphertext shift :
  decipherWithShift ciphertext shift =
    string_of_runes (shift_rune (26 - normalize shift) <$> runes ciphertext).
Proof.
  unfold decipherWithShift, string_of_runes. fold (normalize shift).
  generalize (runes ciphertext) EmptyString.
  induction l as [|r l IH]; intros b; [reflexivity|].
  cbn [fold_left fmap list_fmap]. rewrite IH. f_equal.
  unfold shift_rune.
  destruct (_ && _); [reflexivity|]. destruct (_ && _); reflexivity.
Qed.

Lemma shift_rune_upper k r : 0 <= k ->
  isUpper r = true -> isUpper (shift_rune k r) = true.
Proof.
  unfold isUpper, shift_rune. chars. intros Hk H. rewrite H.
  destruct (Z.leb_spec 65 r), (Z.leb_spec r 90); try discriminate.
  apply andb_true_intro. split; [apply Z.leb_le|apply Z.leb_le]; zrem.
Qed.

Lemma shift_rune_lower k r : 0 <= k ->
  isLower r = true -> isLower (shift_rune k r) = true.
Proof.
  unfold isLower, shift_rune. chars. intros Hk H. rewrite H.
  destruct (Z.leb_spec 97 r), (Z.leb_spec r 122); try discriminate.
  destruct (Z.leb_spec 65 r), (Z.leb_spec r 90); try lia; cbn [andb].
  apply andb_true_intro. split; [apply Z.leb_le|apply Z.leb_le]; zrem.
Qed.

Lemma shift_rune_other k r : isLetter r = false -> shift_rune k r = r.
Proof.
  unfold isLetter, isUpper, isLower, shift_rune.
  intros [-> ->]%orb_false_elim. reflexivity.
Qed.

Lemma shift_rune_scalar k r : 0 <= k -> scalar r -> scalar (shift_rune k r).
Proof.
  intros Hk Hr.
  destruct (isUpper r) eqn:U.
  { apply (shift_rune_upper k) in U; [|exact Hk]. revert U.
    unfold isUpper, scalar, MaxRune. chars.
    intros [?%Z.leb_le ?%Z.leb_le]%andb_prop. lia. }
  destruct (isLower r) eqn:L.
  { apply (shift_rune_lower k) in L; [|exact Hk]. revert L.
    unfold isLower, scalar, MaxRune. chars.
    intros [?%Z.leb_le ?%Z.leb_le]%andb_prop. lia. }
  rewrite shift_rune_other; [exact Hr|]. unfold isLetter. rewrite U, L.
  reflexivity.
Qed.

(** Shifting by [k] and then by [26 - k] is the identity. *)
Lemma shift_rune_inverse k r : 0 <= k < 26 ->
  shift_rune (26 - k) (shift_rune k r) = r.
Proof.
  intros Hk. unfold shift_rune at 2. chars.
  destruct (Z.leb_spec 65 r), (Z.leb_spec r 90); cbn [andb].
  1: { unfold shift_rune. chars.
       set (x := 65 + Z.rem (r - 65 + k) 26).
       assert (65 <= x <= 90) by (unfold x; zrem).
       destruct (Z.leb_spec 65 x), (Z.leb_spec x 90); try lia. cbn [andb].
       unfold x. zrem. }
  all: destruct (Z.leb_spec 97 r), (Z.leb_spec r 122); cbn [andb].
  all: try (unfold shift_rune; chars;
       set (x := 97 + Z.rem (r - 97 + k) 26);
       assert (97 <= x <= 122) by (unfold x; zrem);
       destruct (Z.leb_spec 65 x), (Z.leb_spec x 90); try lia; cbn [andb];
       destruct (Z.leb_spec 97 x), (Z.leb_spec x 122); try lia; cbn [andb];
       unfold x; zrem).
  all: unfold shift_rune; chars.
  all: destruct (Z.leb_spec 65 r), (Z.leb_spec r 90); try lia; cbn [andb].
  all: destruct (Z.leb_spec 97 r), (Z.leb_spec r 122); try lia; cbn [andb].
  all: reflexivity.
Qed.

(** Only the shift modulo 26 matters. *)
Lemma shift_rune_mod k k' r : 0 <= k -> 0 <= k' -> k mod 26 = k' mod 26 ->
  shift_rune k r = shift_rune k' r.
Proof.
  intros Hk Hk' E. unfold shift_rune. chars.
  destruct (Z.leb_spec 65 r), (Z.leb_spec r 90); cbn [andb].
  1: { f_equal. rewrite !Z.rem_mod_nonneg by lia.
       rewrite (Z.add_mod _ k), (Z.add_mod _ k') by lia. rewrite E.
       reflexivity. }
  all: destruct (Z.leb_spec 97 r), (Z.leb_spec r 122); cbn [andb];
    try reflexivity.
  all: f_equal; rewrite !Z.rem_mod_nonneg by lia;
       rewrite (Z.add_mod _ k), (Z.add_mod _ k') by lia; rewrite E;
       reflexivity.
Qed.

(** The runes of the output of the encoder, and of the decoder. *)
Lemma runes_applyCipher plaintext shift :
  runes (applyCipher plaintext shift) =
    shift_rune (normalize shift) <$> runes plaintext.
Proof.
  rewrite applyCipher_runes. apply runes_string_of_runes.
  apply Forall_fmap. eapply Forall_impl; [apply runes_scalar|].
  intros r Hr. apply shift_rune_scalar; [|exact Hr].
  pose proof (normalize_range shift). lia.
Qed.

Lemma runes_decipherWithShift ciphertext shift :
  runes (decipherWithShift ciphertext shift) =
    shift_rune (26 - normalize shift) <$> runes ciphertext.
Proof.
  rewrite decipherWithShift_runes. apply runes_string_of_runes.
  apply Forall_fmap. eapply Forall_impl; [apply runes_scalar|].
  intros r Hr. apply shift_rune_scalar; [|exact Hr].
  pose proof (normalize_range shift). lia.
Qed.

(** On every string, also one that is not well-formed, the round trip
    restores the characters a [range] loop reads. *)
Lemma roundtrip_runes T s :
  runes (decipherWithShift (applyCipher T s) s) = runes T.
Proof.
  rewrite runes_decipherWithShift, runes_applyCipher.
  rewrite <- list_fmap_compose.
  rewrite (list_fmap_ext _ id (runes T) ).
  - apply list_fmap_id.
  - intros i x _. cbn. apply shift_rune_inverse, normalize_range.
Qed.

(** The decoder is the encoder with the complementary shift. *)
Lemma decipher_is_cipher text s :
  decipherWithShift text s = applyCipher text ((26 - s mod 26) mod 26).
Proof.
  rewrite decipherWithShift_runes, applyCipher_runes. f_equal.
  apply list_fmap_ext. intros _ r _.
  pose proof (normalize_range s).
  pose proof (normalize_range ((26 - s mod 26) mod 26)).
  apply shift_rune_mod; [lia|lia|].
  rewrite !normalize_mod. rewrite Z.mod_mod by lia.
  rewrite (Z.mod_mod (26 - _)) by lia. reflexivity.
Qed.

(** ** binary64 arithmetic *)

Module float64_facts.
Import float64.

(** *** Sums of numbers that are not negative *)

(** An invariant of [f] is an invariant of its iterates. *)
Lemma iter_pos_invariant {A} (P : A -> Prop) (f : A -> A) :
  (forall x, P x -> P (f x)) -> forall n x, P x -> P (SpecFloat.iter_pos f n x).
Proof.
  intros Hf. induction n as [n IH|n IH|]; intros x Hx; cbn [SpecFloat.iter_pos].
  - apply IH, IH, Hf, Hx.
  - apply IH, IH, Hx.
  - apply Hf, Hx.
Qed.

Lemma shr_1_nonneg mrs : 0 <= shr_m mrs -> 0 <= shr_m (shr_1 mrs).
Proof.
  destruct mrs as [m r s]. cbn [shr_m]. intros Hm.
  destruct m as [|[p|p|]|p]; cbn; lia.
Qed.

Lemma shr_nonneg mrs e n : 0 <= shr_m mrs -> 0 <= shr_m (shr mrs e n).1.
Proof.
  intros Hm. destruct n as [|p|p]; cbn; [exact Hm| |exact Hm].
  apply (iter_pos_invariant (fun x => 0 <= shr_m x)); [|exact Hm].
  apply shr_1_nonneg.
Qed.

Lemma shr_fexp_nonneg m e l :
  0 <= m -> 0 <= shr_m (shr_fexp prec emax m e l).1.
Proof.
  intros Hm. unfold shr_fexp. apply shr_nonneg.
  destruct l as [|[| |]]; exact Hm.
Qed.

Lemma round_nearest_even_nonneg m l : 0 <= m -> 0 <= round_nearest_even m l.
Proof.
  intros Hm. destruct l as [|[| |]]; cbn; try lia.
  destruct (Z.even m); lia.
Qed.

Lemma binary_round_aux_nonneg m e l :
  0 <= m -> nonneg (binary_round_aux prec emax false m e l).
Proof.
  intros Hm. unfold binary_round_aux.
  pose proof (shr_fexp_nonneg m e l Hm) as H1.
  destruct (shr_fexp prec emax m e l) as [mrs' e']. cbn [fst] in H1.
  pose proof (shr_fexp_nonneg
    (round_nearest_even (shr_m mrs') (loc_of_shr_record mrs')) e' loc_Exact
    (round_nearest_even_nonneg _ _ H1)) as H2.
  destruct (shr_fexp prec emax _ e' loc_Exact) as [mrs'' e'']. cbn [fst] in H2.
  destruct (shr_m mrs'') as [|p|p]; [exact I| |lia].
  destruct (e'' <=? emax - prec); exact I.
Qed.

Lemma binary_normalize_nonneg p e :
  nonneg (binary_normalize prec emax (Zpos p) e false).
Proof.
  cbn [binary_normalize]. unfold binary_round.
  destruct (shl_align p e _) as [mz ez]. apply binary_round_aux_nonneg. lia.
Qed.

(** The sum of two numbers that are not negative is not negative. *)
Lemma add_nonneg x y : nonneg x -> nonneg y -> nonneg (add x y).
Proof.
  destruct x as [[]|[]| |[] mx ex], y as [[]|[]| |[] my ey];
    cbn; try tauto.
  intros _ _. apply binary_normalize_nonneg.
Qed.

(** *** The order on numbers that are not negative *)

Lemma key_inj x y : nonneg x -> nonneg y -> key x = key y -> x = y.
Proof.
  destruct x as [[]|[]| |[] mx ex], y as [[]|[]| |[] my ey];
    cbn; try tauto; try discriminate; try reflexivity.
  intros _ _ [= -> ->]. reflexivity.
Qed.

Lemma ltb_key x y : nonneg x -> nonneg y ->
  ltb x y = true <-> lex_lt (key x) (key y).
Proof.
  unfold ltb, SFltb.
  destruct x as [[]|[]| |[] mx ex], y as [[]|[]| |[] my ey];
    cbn; try tauto; intros _ _; try (split; [discriminate|lia]);
    try (split; [lia|reflexivity]).
  change (Pos.compare_cont Eq mx my) with (Pos.compare mx my).
  destruct (Z.compare_spec ex ey), (Pos.compare_spec mx my);
    split; try discriminate; try reflexivity; lia.
Qed.

Lemma ltb_irrefl x : nonneg x -> ltb x x = false.
Proof.
  intros Hx. apply not_true_is_false. rewrite ltb_key by assumption.
  destruct (key x) as [[a b] c]. cbn. lia.
Qed.

Lemma ltb_trans x y z : nonneg x -> nonneg y -> nonneg z ->
  ltb x y = true -> ltb y z = true -> ltb x z = true.
Proof.
  intros Hx Hy Hz. rewrite !ltb_key by assumption.
  destruct (key x) as [[a b] c], (key y) as [[a' b'] c'],
    (key z) as [[a'' b''] c'']. cbn. lia.
Qed.

Lemma ltb_le_trans x y z : nonneg x -> nonneg y -> nonneg z ->
  ltb y x = false -> ltb y z = true -> ltb x z = true.
Proof.
  intros Hx Hy Hz H. apply not_true_iff_false in H. revert H.
  rewrite !ltb_key by assumption.
  destruct (key x) as [[a b] c], (key y) as [[a' b'] c'],
    (key z) as [[a'' b''] c'']. cbn. lia.
Qed.

Lemma ltb_asym x y : nonneg x -> nonneg y -> ltb x y = true -> ltb y x = false.
Proof.
  intros Hx Hy H. apply not_true_is_false. revert H.
  rewrite !ltb_key by assumption.
  destruct (key x) as [[a b] c], (key y) as [[a' b'] c']. cbn. lia.
Qed.

Lemma ltb_total x y : nonneg x -> nonneg y ->
  ltb x y = false -> ltb y x = false -> x = y.
Proof.
  intros Hx Hy H1 H2. apply key_inj; try assumption.
  apply not_true_iff_false in H1, H2. revert H1 H2.
  rewrite !ltb_key by assumption.
  destruct (key x) as [[a b] c], (key y) as [[a' b'] c']. cbn.
  intros. f_equal; [f_equal|]; lia.
Qed.

(** Every such number exceeds the sentinel [-1.0]. *)
Lemma gtb_sentinel x : nonneg x -> gtb x cm1 = true.
Proof. destruct x as [[]|[]| |[] mx ex]; cbn; tauto. Qed.



(** *** Integers are represented exactly *)

Lemma iter_pos_iter {A} (f : A -> A) n x :
  SpecFloat.iter_pos f n x = Pos.iter f x n.
Proof.
  revert x. induction n as [n IH|n IH|]; intros x; cbn.
  - rewrite !IH. rewrite <- !Pos.iter_swap. reflexivity.
  - rewrite !IH. reflexivity.
  - reflexivity.
Qed.

Lemma iter_xO_val m q : Zpos (Pos.iter xO m q) = Zpos m * 2 ^ Zpos q.
Proof.
  induction q as [|q IH] using Pos.peano_ind.
  - cbn. lia.
  - rewrite Pos.iter_succ, Pos2Z.inj_xO, IH, Pos2Z.inj_succ.
    rewrite Z.pow_succ_r by lia. lia.
Qed.

Lemma pshl_val m k : 0 <= k -> Zpos (pshl m k) = Zpos m * 2 ^ k.
Proof.
  intros Hk. destruct k as [|q|q]; [cbn; lia| |lia].
  apply iter_xO_val.
Qed.

Lemma iter_xO_digits m q :
  Zpos (digits2_pos (Pos.iter xO m q)) = Zpos (digits2_pos m) + Zpos q.
Proof.
  induction q as [|q IH] using Pos.peano_ind.
  - cbn. lia.
  - rewrite Pos.iter_succ. cbn [digits2_pos]. lia.
Qed.

Lemma pshl_digits m k : 0 <= k ->
  Zpos (digits2_pos (pshl m k)) = Zpos (digits2_pos m) + k.
Proof.
  intros Hk. destruct k as [|q|q]; [cbn; lia| |lia].
  apply iter_xO_digits.
Qed.

Lemma shr_exact m q :
  SpecFloat.iter_pos shr_1 q
    {| shr_m := Zpos (Pos.iter xO m q); shr_r := false; shr_s := false |}
  = {| shr_m := Zpos m; shr_r := false; shr_s := false |}.
Proof.
  rewrite iter_pos_iter.
  induction q as [|q IH] using Pos.peano_ind.
  - reflexivity.
  - rewrite !Pos.iter_succ, <- Pos.iter_swap.
    cbn [shr_1 orb]. exact IH.
Qed.

Lemma fexp_normal d : emin prec emax <= d - prec -> fexp prec emax d = d - prec.
Proof. unfold fexp. lia. Qed.

(** Rounding a mantissa of 53 bits followed by [k] zero bits is exact. *)
Lemma binary_round_aux_exact m k e :
  Zpos (digits2_pos m) = prec -> 0 <= k ->
  emin prec emax <= e + k <= emax - prec ->
  binary_round_aux prec emax false (Zpos (pshl m k)) e loc_Exact
    = S754_finite false m (e + k).
Proof.
  intros Hd Hk He. unfold binary_round_aux, shr_fexp.
  cbn [Zdigits2]. rewrite pshl_digits, Hd by exact Hk.
  rewrite fexp_normal by lia.
  replace (prec + k + e - prec - e) with k by lia.
  assert (shr (shr_record_of_loc (Zpos (pshl m k)) loc_Exact) e k =
          ({| shr_m := Zpos m; shr_r := false; shr_s := false |}, e + k))
    as ->.
  { destruct k as [|q|q]; [cbn; f_equal; lia| |lia].
    cbn [shr shr_record_of_loc pshl]. rewrite shr_exact. reflexivity. }
  cbn [shr_m loc_of_shr_record round_nearest_even Zdigits2].
  rewrite Hd, fexp_normal by lia.
  replace (prec + (e + k) - prec - (e + k)) with 0 by lia.
  cbn [shr shr_record_of_loc shr_m].
  destruct (Z.leb_spec (e + k) (emax - prec)); [reflexivity|lia].
Qed.

Lemma binary_round_exact m k e :
  Zpos (digits2_pos m) = prec -> 0 <= k ->
  emin prec emax <= e + k <= emax - prec ->
  binary_round prec emax false (pshl m k) e = S754_finite false m (e + k).
Proof.
  intros Hd Hk He. unfold binary_round.
  rewrite pshl_digits, Hd, fexp_normal by lia.
  unfold shl_align. replace (prec + k + e - prec - e) with k by lia.
  destruct k as [|q|q]; [| |lia]; apply binary_round_aux_exact;
    assumption.
Qed.

Lemma binary_round_small p e :
  Zpos (digits2_pos p) <= prec ->
  emin prec emax <= Zpos (digits2_pos p) + e - prec <= emax - prec ->
  binary_round prec emax false p e =
    S754_finite false (pshl p (prec - Zpos (digits2_pos p)))
      (Zpos (digits2_pos p) + e - prec).
Proof.
  intros Hd He. unfold binary_round.
  rewrite fexp_normal by lia.
  set (d := Zpos (digits2_pos p)) in *.
  assert (shl_align p e (d + e - prec) = (pshl p (prec - d), d + e - prec))
    as ->.
  { unfold shl_align.
    replace (d + e - prec - e) with (- (prec - d)) by lia.
    destruct (prec - d) as [|q|q] eqn:E; cbn; [f_equal; lia|reflexivity|lia]. }
  replace (d + e - prec) with (d + e - prec + 0) at 2 by lia.
  change (pshl p (prec - d)) with (pshl (pshl p (prec - d)) 0) at 1.
  apply binary_round_aux_exact; [|lia|lia].
  rewrite pshl_digits by lia. fold d. lia.
Qed.

Lemma digits_bound p n : Zpos p < 2 ^ n -> 0 <= n -> Zpos (digits2_pos p) <= n.
Proof.
  revert n. induction p as [p IH|p IH|]; intros n Hp Hn; cbn [digits2_pos].
  - destruct (Z.eq_dec n 0) as [->|]; [cbn in Hp; lia|].
    specialize (IH (n - 1)).
    replace n with (Z.succ (n - 1)) in Hp by lia.
    rewrite Z.pow_succ_r in Hp by lia. lia.
  - destruct (Z.eq_dec n 0) as [->|]; [cbn in Hp; lia|].
    specialize (IH (n - 1)).
    replace n with (Z.succ (n - 1)) in Hp by lia.
    rewrite Z.pow_succ_r in Hp by lia. lia.
  - destruct (Z.eq_dec n 0) as [->|]; [cbn in Hp; lia|]. lia.
Qed.

(** The canonical form of [float64(n)] for [0 < n < 2^53]. *)
Lemma of_int_pos p :
  Zpos p < 2 ^ 53 ->
  of_int (Zpos p) =
    S754_finite false (pshl p (53 - Zpos (digits2_pos p)))
      (Zpos (digits2_pos p) - 53).
Proof.
  intros Hp. pose proof (digits_bound p 53 Hp ltac:(lia)) as Hd.
  unfold of_int. cbn [binary_normalize].
  rewrite binary_round_small; unfold prec, emax, emin in *; try lia.
  f_equal; lia.
Qed.



(** [SpecFloat] is written with the integer operations of the core
    library; [zfix] gives them their standard names. *)
Ltac zfix :=
  change IntDef.Z.add with Z.add in *; change IntDef.Z.sub with Z.sub in *;
  change IntDef.Z.mul with Z.mul in *; change IntDef.Z.max with Z.max in *;
  change IntDef.Z.min with Z.min in *; change IntDef.Z.even with Z.even in *;
  change IntDef.Z.compare with Z.compare in *;
  change IntDef.Z.eqb with Z.eqb in *; change IntDef.Z.leb with Z.leb in *;
  change IntDef.Z.div_eucl with Z.div_eucl in *;
  change IntDef.Z.shiftl with Z.shiftl in *;
  change IntDef.Z.opp with Z.opp in *.

Lemma digits_upper p : Zpos p < 2 ^ Zpos (digits2_pos p).
Proof.
  induction p as [p IH|p IH|]; cbn [digits2_pos];
    rewrite ?Pos2Z.inj_succ, ?Z.pow_succ_r by lia; lia.
Qed.

Lemma digits_lower p : 2 ^ (Zpos (digits2_pos p) - 1) <= Zpos p.
Proof.
  induction p as [p IH|p IH|]; cbn [digits2_pos];
    rewrite ?Pos2Z.inj_succ; try (cbn; lia).
  all: replace (Z.succ (Zpos (digits2_pos p)) - 1)
         with (Z.succ (Zpos (digits2_pos p) - 1)) by lia.
  all: rewrite Z.pow_succ_r by lia; lia.
Qed.

Lemma digits_eq p n :
  2 ^ (n - 1) <= Zpos p < 2 ^ n -> 1 <= n -> Zpos (digits2_pos p) = n.
Proof.
  intros [Hl Hu] Hn.
  pose proof (digits_bound p n Hu ltac:(lia)) as H1.
  pose proof (digits_upper p) as H2.
  destruct (Z.eq_dec (Zpos (digits2_pos p)) n) as [|Hne]; [assumption|].
  assert (Zpos (digits2_pos p) <= n - 1) as H3 by lia.
  pose proof (Z.pow_le_mono_r 2 _ _ ltac:(lia) H3). lia.
Qed.

Lemma new_location_ok den r :
  0 <= r < den -> loc_ok (new_location den r) r den.
Proof.
  intros Hr. split; [exact Hr|].
  unfold new_location, new_location_even, new_location_odd.
  destruct (Z.even den) eqn:Ev.
  - destruct (Z.eqb_spec r 0); [assumption|]. split; [lia|reflexivity].
  - destruct (Z.eqb_spec r 0); [assumption|]. split; [lia|].
    assert (Z.odd den = true) as Ho
      by (rewrite <- Z.negb_even, Ev; reflexivity).
    apply Z.odd_spec in Ho. destruct Ho as [h Ho].
    destruct (Z.compare_spec (2 * r + 1) den), (Z.compare_spec (2 * r) den);
      try reflexivity; lia.
Qed.

(** Rounding to nearest even moves by at most one half. *)
Lemma round_nearest_even_bracket m l num den :
  loc_ok l num den ->
  let m1 := round_nearest_even m l in
  (m1 = m \/ m1 = m + 1) /\
  (2 * m1 - 1) * den <= 2 * (m * den + num) <= (2 * m1 + 1) * den.
Proof.
  intros [Hr Hl]. destruct l as [|[| |]]; cbn; zfix.
  - subst num. split; [auto|]. lia.
  - destruct Hl as [Hn Hc]. symmetry in Hc. apply Z.compare_eq in Hc.
    destruct (Z.even m); split; auto; lia.
  - destruct Hl as [Hn Hc]. symmetry in Hc. rewrite Z.compare_lt_iff in Hc.
    split; [auto|]. lia.
  - destruct Hl as [Hn Hc]. symmetry in Hc. rewrite Z.compare_gt_iff in Hc.
    split; [auto|]. lia.
Qed.

(** One bit shifted out: the location of what is left. *)
Lemma shr_1_ok q l num den :
  0 < q -> loc_ok l num den ->
  exists q' beta,
    shr_1 (shr_record_of_loc q l) = shr_record_of_loc q'
      (loc_of_shr_record (shr_1 (shr_record_of_loc q l))) /\
    shr_m (shr_1 (shr_record_of_loc q l)) = q' /\
    q = 2 * q' + beta /\ 0 <= beta <= 1 /\
    loc_ok (loc_of_shr_record (shr_1 (shr_record_of_loc q l)))
      (beta * den + num) (2 * den).
Proof.
  intros Hq [Hr Hl].
  destruct q as [|[p|p|]|p]; try lia.
  - exists (Zpos p), 1.
    destruct l as [|[| |]]; cbn; (split; [reflexivity|]);
      (split; [reflexivity|]); (split; [lia|]); (split; [lia|]);
      (split; [lia|]); try (split; [lia|]);
      symmetry; rewrite ?Z.compare_eq_iff, ?Z.compare_gt_iff; lia.
  - exists (Zpos p), 0.
    destruct l as [|[| |]]; cbn; (split; [reflexivity|]);
      (split; [reflexivity|]); (split; [lia|]); (split; [lia|]);
      (split; [lia|]); try (split; [lia|]);
      try (symmetry; rewrite Z.compare_lt_iff); lia.
  - exists 0, 1.
    destruct l as [|[| |]]; cbn; (split; [reflexivity|]);
      (split; [reflexivity|]); (split; [lia|]); (split; [lia|]);
      (split; [lia|]); try (split; [lia|]);
      symmetry; rewrite ?Z.compare_eq_iff, ?Z.compare_gt_iff; lia.
Qed.


Lemma loc_of_record_of_loc m l :
  loc_of_shr_record (shr_record_of_loc m l) = l /\
  shr_m (shr_record_of_loc m l) = m.
Proof. destruct l as [|[| |]]; split; reflexivity. Qed.

Lemma Zdigits2_eq q n :
  2 ^ (n - 1) <= q < 2 ^ n -> 1 <= n -> Zdigits2 q = n.
Proof.
  intros Hq Hn.
  assert (0 < q) by (pose proof (Z.pow_pos_nonneg 2 (n - 1)); lia).
  destruct q as [|p|p]; try lia. cbn [Zdigits2]. apply digits_eq; assumption.
Qed.

(** The shift that brings a mantissa of [d] bits back to 53 bits. *)
Lemma shr_fexp_digits q e l d :
  Zdigits2 q = d -> emin prec emax <= d + e - prec ->
  shr_fexp prec emax q e l = shr (shr_record_of_loc q l) e (d - prec).
Proof.
  intros Hd He. unfold shr_fexp. rewrite Hd. zfix.
  rewrite fexp_normal by exact He. f_equal. lia.
Qed.

(** The end of [binary_round_aux]: a rounded mantissa of 53 bits, or
    [2^53], becomes a number. *)
Lemma binary_round_aux_finish m1 e1 :
  2 ^ 52 <= m1 <= 2 ^ 53 -> -1000 <= e1 <= 900 ->
  exists m d,
    (let '(mrs, e) := shr_fexp prec emax m1 e1 loc_Exact in
     match shr_m mrs with
     | Z0 => S754_zero false
     | Zpos m => if e <=? emax - prec then S754_finite false m e
                 else S754_infinity false
     | Zneg _ => S754_nan
     end) = S754_finite false m (e1 + d) /\
    2 ^ 52 <= Zpos m < 2 ^ 53 /\
    ((d = 0 /\ Zpos m = m1) \/ (d = 1 /\ m1 = 2 ^ 53 /\ Zpos m = 2 ^ 52)).
Proof.
  intros Hm He. unfold prec, emax, emin in *.
  destruct (Z.eq_dec m1 (2 ^ 53)) as [->|Hne].
  - exists 4503599627370496%positive, 1.
    rewrite (shr_fexp_digits _ _ _ 54);
      [|reflexivity|unfold prec, emax, emin; lia].
    change (54 - prec) with 1. change (2 ^ 53) with 9007199254740992.
    cbn [shr SpecFloat.iter_pos shr_1 shr_record_of_loc shr_m orb]. zfix.
    change (1024 - 53) with 971.
    destruct (Z.leb_spec (e1 + 1) 971); [|lia].
    split; [reflexivity|]. split; [lia|]. right. auto.
  - rewrite (shr_fexp_digits _ _ _ 53);
      [|apply Zdigits2_eq; lia|unfold prec, emax, emin; lia].
    destruct m1 as [|p|p]; try lia. exists p, 0.
    change (53 - prec) with 0.
    cbn [shr shr_record_of_loc shr_m]. change (1024 - 53) with 971.
    destruct (Z.leb_spec e1 971); [|lia].
    split; [f_equal; lia|]. split; [lia|]. left. auto.
Qed.

(** [binary_round_aux] on a mantissa of 53 or 54 bits: the result is
    within half a unit in the last place of the number it is given. *)
Lemma binary_round_aux_bracket q e l num den :
  2 ^ 52 <= q < 2 ^ 54 -> loc_ok l num den -> -1000 <= e <= 800 ->
  exists m d,
    binary_round_aux prec emax false q e l = S754_finite false m (e + d) /\
    0 <= d <= 2 /\ 2 ^ 52 <= Zpos m < 2 ^ 53 /\
    (2 * Zpos m - 1) * (2 ^ d * den) <= 2 * (q * den + num)
      <= (2 * Zpos m + 1) * (2 ^ d * den).
Proof.
  intros Hq Hl He. unfold binary_round_aux.
  assert (0 < den) as Hden by (destruct Hl; lia).
  destruct (Z.lt_ge_cases q (2 ^ 53)) as [Hs|Hb].
  - rewrite (shr_fexp_digits _ _ _ 53);
      [|apply Zdigits2_eq; lia|unfold prec, emax, emin; lia].
    change (shr (shr_record_of_loc q l) e (53 - prec))
      with (shr_record_of_loc q l, e).
    cbv iota beta. destruct (loc_of_record_of_loc q l) as [-> ->].
    destruct (round_nearest_even_bracket q l num den Hl) as [Hm1 Hb1].
    set (m1 := round_nearest_even q l) in *.
    destruct (binary_round_aux_finish m1 e) as (m & d & -> & Hm & Hd);
      [lia|lia|].
    exists m, d. split; [reflexivity|]. split; [lia|]. split; [exact Hm|].
    destruct Hd as [(-> & ->)|(-> & -> & ->)].
    + rewrite Z.pow_0_r, Z.mul_1_l. exact Hb1.
    + change (2 ^ 1) with 2. change (2 ^ 53) with 9007199254740992 in *.
      change (2 ^ 52) with 4503599627370496 in *. lia.
  - rewrite (shr_fexp_digits _ _ _ 54);
      [|apply Zdigits2_eq; lia|unfold prec, emax, emin; lia].
    change (shr (shr_record_of_loc q l) e (54 - prec))
      with (shr_1 (shr_record_of_loc q l), e + 1).
    cbv iota beta.
    destruct (shr_1_ok q l num den)
      as (q' & beta & Hrec & Hq' & Eq & Hbeta & Hl');
      [lia|exact Hl|].
    rewrite Hq'.
    destruct (round_nearest_even_bracket q' _ _ _ Hl') as [Hm1 Hb1].
    set (m1 := round_nearest_even q' _) in *.
    change (2 ^ 53) with 9007199254740992 in *.
    change (2 ^ 52) with 4503599627370496 in *.
    change (2 ^ 54) with 18014398509481984 in *.
    destruct (binary_round_aux_finish m1 (e + 1)) as (m & d & -> & Hm & Hd);
      [change (2 ^ 53) with 9007199254740992;
       change (2 ^ 52) with 4503599627370496; lia|lia|].
    exists m, (1 + d). split; [f_equal; lia|]. split; [lia|].
    split; [exact Hm|].
    change (2 ^ 53) with 9007199254740992 in *.
    change (2 ^ 52) with 4503599627370496 in *.
    destruct Hd as [(-> & ->)|(-> & -> & ->)].
    + change (2 ^ (1 + 0)) with 2. lia.
    + change (2 ^ (1 + 1)) with 4. lia.
Qed.



Lemma mantissa_range m :
  Zpos (digits2_pos m) = prec -> 2 ^ 52 <= Zpos m < 2 ^ 53.
Proof.
  intros Hd. pose proof (digits_lower m) as Hl.
  pose proof (digits_upper m) as Hu. rewrite Hd in Hl, Hu. exact (conj Hl Hu).
Qed.

(** The integer quotient from which the quotient of two numbers is
    rounded. *)
Lemma div_core ma ea mb eb :
  Zpos (digits2_pos ma) = prec -> Zpos (digits2_pos mb) = prec ->
  -400 <= ea - eb <= 400 ->
  SFdiv_core_binary prec emax (Zpos ma) ea (Zpos mb) eb =
    (Zpos ma * 2 ^ 53 / Zpos mb, ea - eb - 53,
     new_location (Zpos mb) ((Zpos ma * 2 ^ 53) mod Zpos mb)).
Proof.
  intros Ha Hb He. unfold SFdiv_core_binary. cbn [Zdigits2].
  rewrite Ha, Hb. zfix.
  rewrite fexp_normal by (unfold prec, emax, emin; lia).
  replace (Z.min (prec + ea - (prec + eb) - prec) (ea - eb))
    with (ea - eb - 53) by (unfold prec; lia).
  replace (ea - eb - (ea - eb - 53)) with 53 by lia.
  cbv zeta iota beta. rewrite Z.shiftl_mul_pow2 by lia.
  unfold Z.div, Z.modulo.
  destruct (Z.div_eucl (Zpos ma * 2 ^ 53) (Zpos mb)) as [q r]. reflexivity.
Qed.

(** The quotient of two numbers with mantissas of 53 bits is within half
    a unit in the last place of the exact quotient. *)
Lemma div_bracket ma ea mb eb :
  Zpos (digits2_pos ma) = prec -> Zpos (digits2_pos mb) = prec ->
  -400 <= ea - eb <= 400 ->
  exists m d,
    div (S754_finite false ma ea) (S754_finite false mb eb)
      = S754_finite false m (ea - eb - 53 + d) /\
    0 <= d <= 2 /\ 2 ^ 52 <= Zpos m < 2 ^ 53 /\
    (2 * Zpos m - 1) * (2 ^ d * Zpos mb) <= 2 * (Zpos ma * 2 ^ 53)
      <= (2 * Zpos m + 1) * (2 ^ d * Zpos mb).
Proof.
  intros Ha Hb He. unfold div, SFdiv. rewrite div_core by assumption.
  cbn [xorb].
  pose proof (mantissa_range ma Ha) as Ra.
  pose proof (mantissa_range mb Hb) as Rb.
  change (2 ^ 52) with 4503599627370496 in *.
  change (2 ^ 53) with 9007199254740992 in *.
  set (q := Zpos ma * 9007199254740992 / Zpos mb).
  set (r := (Zpos ma * 9007199254740992) mod Zpos mb).
  assert (Zpos ma * 9007199254740992 = q * Zpos mb + r) as Hqr
    by (unfold q, r; rewrite (Z.mul_comm _ (Zpos mb)); apply Z.div_mod; lia).
  assert (0 <= r < Zpos mb) as Hr by (apply Z.mod_pos_bound; lia).
  assert (4503599627370496 <= q < 18014398509481984) as Hq.
  { split.
    - apply Z.div_le_lower_bound; lia.
    - apply Z.div_lt_upper_bound; lia. }
  destruct (binary_round_aux_bracket q (ea - eb - 53)
              (new_location (Zpos mb) r) r (Zpos mb))
    as (m & d & -> & Hd & Hm & Hbr).
  - change (2 ^ 52) with 4503599627370496.
    change (2 ^ 54) with 18014398509481984. exact Hq.
  - apply new_location_ok, Hr.
  - lia.
  - exists m, d. split; [reflexivity|]. split; [exact Hd|].
    change (2 ^ 52) with 4503599627370496 in *.
    change (2 ^ 53) with 9007199254740992 in *.
    split; [exact Hm|]. rewrite Hqr. exact Hbr.
Qed.

(** The same for the conversions of two positive integers below [2^53]:
    the quotient is [m * 2^-k], with [m] the mantissa nearest to
    [a / b * 2^k]. *)
Lemma div_of_int a b :
  0 < a < 2 ^ 53 -> 0 < b < 2 ^ 53 ->
  exists m k,
    div (of_int a) (of_int b) = S754_finite false m (- k) /\
    0 <= k + 1 /\ 2 ^ 52 <= Zpos m < 2 ^ 53 /\
    (2 * Zpos m - 1) * b <= 2 ^ (k + 1) * a <= (2 * Zpos m + 1) * b.
Proof.
  intros Ha Hb.
  destruct a as [|pa|pa]; try lia. destruct b as [|pb|pb]; try lia.
  rewrite !of_int_pos by lia.
  set (da := Zpos (digits2_pos pa)). set (db := Zpos (digits2_pos pb)).
  pose proof (digits_bound pa 53 ltac:(lia) ltac:(lia)) as Hda.
  pose proof (digits_bound pb 53 ltac:(lia) ltac:(lia)) as Hdb.
  assert (1 <= da) as Hda1 by (unfold da; lia).
  assert (1 <= db) as Hdb1 by (unfold db; lia).
  fold da in Hda. fold db in Hdb.
  destruct (div_bracket (pshl pa (53 - da)) (da - 53)
              (pshl pb (53 - db)) (db - 53))
    as (m & d & -> & Hd & Hm & Hbr).
  - rewrite pshl_digits by lia. fold da. unfold prec. lia.
  - rewrite pshl_digits by lia. fold db. unfold prec. lia.
  - lia.
  - exists m, (53 + db - da - d). split; [f_equal; lia|].
    split; [lia|]. split; [exact Hm|].
    rewrite !pshl_val in Hbr by lia.
    set (P := 2 ^ d * 2 ^ (53 - db)).
    assert (0 < P) as HP by (unfold P; apply Z.mul_pos_pos;
                               apply Z.pow_pos_nonneg; lia).
    assert (2 * (Zpos pa * 2 ^ (53 - da) * 2 ^ 53)
            = 2 ^ (53 + db - da - d + 1) * Zpos pa * P) as E.
    { unfold P.
      replace (2 * (Zpos pa * 2 ^ (53 - da) * 2 ^ 53))
        with (Zpos pa * (2 ^ 1 * 2 ^ (53 - da) * 2 ^ 53)) by ring.
      replace (2 ^ (53 + db - da - d + 1) * Zpos pa * (2 ^ d * 2 ^ (53 - db)))
        with (Zpos pa * (2 ^ (53 + db - da - d + 1) * 2 ^ d * 2 ^ (53 - db)))
        by ring.
      rewrite <- !Z.pow_add_r by lia. do 2 f_equal. lia. }
    rewrite E in Hbr.
    replace ((2 * Zpos m - 1) * (2 ^ d * (Zpos pb * 2 ^ (53 - db))))
      with ((2 * Zpos m - 1) * Zpos pb * P) in Hbr by (unfold P; ring).
    replace ((2 * Zpos m + 1) * (2 ^ d * (Zpos pb * 2 ^ (53 - db))))
      with ((2 * Zpos m + 1) * Zpos pb * P) in Hbr by (unfold P; ring).
    destruct Hbr as [H1 H2].
    apply Z.mul_le_mono_pos_r in H1, H2; try exact HP. split; assumption.
Qed.



(** The order of two positive numbers. *)
Lemma ltb_finite m1 e1 m2 e2 :
  ltb (S754_finite false m1 e1) (S754_finite false m2 e2) = true <->
  e1 < e2 \/ (e1 = e2 /\ Zpos m1 < Zpos m2).
Proof.
  rewrite ltb_key by exact I. cbn. lia.
Qed.

(** The ratio [a / b], computed in binary64, exceeds the binary64 number
    [0.1] exactly when [a / b > 1 / 10]. *)
Lemma ratio_gt_tenth a b :
  0 <= a < 2 ^ 52 -> 0 <= b < 2 ^ 52 ->
  gtb (div (of_int a) (of_int b)) c0_1 = (b <? 10 * a).
Proof.
  intros Ha Hb. unfold gtb. change SFltb with ltb.
  destruct (Z.eq_dec b 0) as [->|Hb0].
  { destruct a as [|pa|pa]; try lia; [reflexivity|].
    rewrite of_int_pos by (change (2 ^ 53) with (2 * 2 ^ 52); lia).
    reflexivity. }
  destruct (Z.eq_dec a 0) as [->|Ha0].
  { destruct b as [|pb|pb]; try lia.
    rewrite of_int_pos by (change (2 ^ 53) with (2 * 2 ^ 52); lia).
    cbn. symmetry. apply Z.ltb_ge. lia. }
  destruct (div_of_int a b) as (m & k & -> & Hk & Hm & H1 & H2);
    [change (2 ^ 53) with (2 * 2 ^ 52); lia..|].
  apply eq_true_iff_eq. unfold c0_1. rewrite ltb_finite, Z.ltb_lt.
  change (2 ^ 52) with 4503599627370496 in *.
  change (2 ^ 53) with 9007199254740992 in *.
  assert (0 < 2 ^ (k + 1)) as Hp by (apply Z.pow_pos_nonneg; lia).
  assert ((2 * 4503599627370496 - 1) * b <= (2 * Zpos m - 1) * b) as L
    by (apply Z.mul_le_mono_nonneg_r; lia).
  assert ((2 * Zpos m + 1) * b <= (2 * 9007199254740991 + 1) * b) as U
    by (apply Z.mul_le_mono_nonneg_r; lia).
  destruct (Z.lt_trichotomy k 56) as [Hlt|[->|Hgt]].
  - (* the quotient is at least [1/8] *)
    assert (2 ^ (k + 1) <= 2 ^ 56) as Hle
      by (apply Z.pow_le_mono_r; lia).
    assert (2 ^ (k + 1) * a <= 2 ^ 56 * a) as Hle'
      by (apply Z.mul_le_mono_nonneg_r; lia).
    change (2 ^ 56) with 72057594037927936 in *.
    split; [intros _; lia|intros _; left; lia].
  - (* same exponent as [0.1]: the mantissas decide *)
    change (2 ^ (56 + 1)) with 144115188075855872 in *.
    split.
    + intros [?|[_ Hgt]]; [lia|].
      assert ((2 * 7205759403792795 - 1) * b <= (2 * Zpos m - 1) * b)
        by (apply Z.mul_le_mono_nonneg_r; lia).
      lia.
    + intros Hlt. right. split; [reflexivity|].
      destruct (Z.lt_ge_cases 7205759403792794 (Zpos m)) as [|Hle];
        [assumption|exfalso].
      assert ((2 * Zpos m + 1) * b <= (2 * 7205759403792794 + 1) * b)
        by (apply Z.mul_le_mono_nonneg_r; lia).
      lia.
  - (* the quotient is below [1/16] *)
    assert (2 ^ 58 <= 2 ^ (k + 1)) as Hle
      by (apply Z.pow_le_mono_r; lia).
    assert (2 ^ 58 * a <= 2 ^ (k + 1) * a) as Hle'
      by (apply Z.mul_le_mono_nonneg_r; lia).
    change (2 ^ 58) with 288230376151711744 in *.
    split; [intros [?|[? _]]; lia|intros ?; lia].
Qed.

(** The ratio is below [0.25] exactly when [a / b < 1 / 4]. *)
Lemma ratio_lt_quarter a b :
  0 <= a < 2 ^ 52 -> 0 <= b < 2 ^ 52 -> (b = 0 -> a = 0) ->
  ltb (div (of_int a) (of_int b)) c0_25 = (4 * a <? b).
Proof.
  intros Ha Hb Hz.
  destruct (Z.eq_dec b 0) as [->|Hb0].
  { rewrite Hz by reflexivity. reflexivity. }
  destruct (Z.eq_dec a 0) as [->|Ha0].
  { destruct b as [|pb|pb]; try lia.
    rewrite of_int_pos by (change (2 ^ 53) with (2 * 2 ^ 52); lia).
    cbn. symmetry. apply Z.ltb_lt. lia. }
  destruct (div_of_int a b) as (m & k & -> & Hk & Hm & H1 & H2);
    [change (2 ^ 53) with (2 * 2 ^ 52); lia..|].
  apply eq_true_iff_eq. unfold c0_25. rewrite ltb_finite, Z.ltb_lt.
  change (2 ^ 52) with 4503599627370496 in *.
  change (2 ^ 53) with 9007199254740992 in *.
  assert ((2 * 4503599627370496 - 1) * b <= (2 * Zpos m - 1) * b) as L
    by (apply Z.mul_le_mono_nonneg_r; lia).
  assert ((2 * Zpos m + 1) * b <= (2 * 9007199254740991 + 1) * b) as U
    by (apply Z.mul_le_mono_nonneg_r; lia).
  destruct (Z.lt_ge_cases 54 k) as [Hgt|Hle].
  - assert (2 ^ 56 <= 2 ^ (k + 1)) as Hp
      by (apply Z.pow_le_mono_r; lia).
    assert (2 ^ 56 * a <= 2 ^ (k + 1) * a) as Hp'
      by (apply Z.mul_le_mono_nonneg_r; lia).
    change (2 ^ 56) with 72057594037927936 in *.
    split; [intros _; lia|intros _; left; lia].
  - assert (2 ^ (k + 1) <= 2 ^ 55) as Hp
      by (apply Z.pow_le_mono_r; lia).
    assert (2 ^ (k + 1) * a <= 2 ^ 55 * a) as Hp'
      by (apply Z.mul_le_mono_nonneg_r; lia).
    change (2 ^ 55) with 36028797018963968 in *.
    split; [intros [?|[? ?]]; lia|intros ?; lia].
Qed.

(** Adding two integers whose sum is below [2^53] is exact. *)
Lemma add_int n j :
  0 <= n -> 0 <= j -> n + j < 2 ^ 53 ->
  add (of_int n) (of_int j) = of_int (n + j).
Proof.
  intros Hn Hj Hb.
  destruct n as [|pn|pn]; try lia.
  { destruct j as [|pj|pj]; try lia; [reflexivity|].
    rewrite Z.add_0_l, of_int_pos by lia. reflexivity. }
  destruct j as [|pj|pj]; try lia.
  { rewrite Z.add_0_r, of_int_pos by lia. reflexivity. }
  replace (Zpos pn + Zpos pj) with (Zpos (pn + pj)) in * by lia.
  rewrite !of_int_pos by lia.
  set (dn := Zpos (digits2_pos pn)). set (dj := Zpos (digits2_pos pj)).
  set (d := Zpos (digits2_pos (pn + pj))).
  pose proof (digits_bound pn 53 ltac:(lia) ltac:(lia)) as Hdn.
  pose proof (digits_bound pj 53 ltac:(lia) ltac:(lia)) as Hdj.
  pose proof (digits_bound (pn + pj) 53 ltac:(lia) ltac:(lia)) as Hd.
  fold dn in Hdn. fold dj in Hdj. fold d in Hd.
  assert (1 <= dn) by (unfold dn; lia). assert (1 <= dj) by (unfold dj; lia).
  assert (dn <= d /\ dj <= d) as [Hdn' Hdj'].
  { split; apply digits_bound; try lia.
    - pose proof (digits_upper (pn + pj)). fold d in H1. lia.
    - pose proof (digits_upper (pn + pj)). fold d in H1. lia. }
  unfold add, SFadd. cbn [cond_Zopp].
  assert (forall mx ex ez, (shl_align mx ex ez).1 = pshl mx (ex - ez)) as Hs.
  { intros mx ex ez. unfold shl_align. zfix.
    replace (ez - ex) with (- (ex - ez)) by lia.
    destruct (ex - ez); reflexivity. }
  rewrite !Hs. zfix.
  set (ez := Z.min (dn - 53) (dj - 53)).
  replace (Zpos (pshl (pshl pn (53 - dn)) (dn - 53 - ez)) +
           Zpos (pshl (pshl pj (53 - dj)) (dj - 53 - ez)))
    with (Zpos (pshl (pshl (pn + pj) (53 - d)) (d - 53 - ez))).
  2:{ rewrite !pshl_val by lia.
      rewrite <- !Z.mul_assoc, <- !Z.pow_add_r by lia.
      replace (53 - d + (d - 53 - ez)) with (- ez) by lia.
      replace (53 - dn + (dn - 53 - ez)) with (- ez) by lia.
      replace (53 - dj + (dj - 53 - ez)) with (- ez) by lia. lia. }
  cbn [binary_normalize].
  rewrite binary_round_exact; unfold prec, emax, emin; try lia.
  - f_equal; lia.
  - rewrite pshl_digits by lia. fold d. lia.
Qed.

End float64_facts.

(** ** Runes written and read back *)

Lemma sanitize_scalar r : scalar (sanitize r).
Proof.
  unfold sanitize, scalar, MaxRune, RuneError.
  destruct (Z.ltb_spec r 0), (Z.ltb_spec 0x10FFFF r),
    (Z.leb_spec 0xD800 r), (Z.leb_spec r 0xDFFF); cbn; lia.
Qed.

Lemma encode_rune_sanitize r : encode_rune (sanitize r) = encode_rune r.
Proof.
  unfold sanitize, encode_rune, MaxRune.
  destruct ((r <? 0) || (0x10FFFF <? r) || ((0xD800 <=? r) && (r <=? 0xDFFF)))
    eqn:E; [|rewrite E; reflexivity].
  assert ((0 <=? r) && (r <=? 0x7F) = false) as ->.
  { revert E. destruct (Z.ltb_spec r 0), (Z.ltb_spec 0x10FFFF r),
      (Z.leb_spec 0xD800 r), (Z.leb_spec r 0xDFFF),
      (Z.leb_spec 0 r), (Z.leb_spec r 0x7F); cbn; intros; try lia;
      congruence. }
  assert ((0 <=? r) && (r <=? 0x7FF) = false) as ->.
  { revert E. destruct (Z.ltb_spec r 0), (Z.ltb_spec 0x10FFFF r),
      (Z.leb_spec 0xD800 r), (Z.leb_spec r 0xDFFF),
      (Z.leb_spec 0 r), (Z.leb_spec r 0x7FF); cbn; intros; try lia;
      congruence. }
  reflexivity.
Qed.

Lemma string_of_runes_sanitize rs :
  string_of_runes (sanitize <$> rs) = string_of_runes rs.
Proof.
  induction rs as [|r rs IH]; [reflexivity|].
  rewrite fmap_cons, !string_of_runes_cons, IH, encode_rune_sanitize.
  reflexivity.
Qed.

(** The runes of a string that was written rune by rune. *)
Lemma runes_written rs : runes (string_of_runes rs) = sanitize <$> rs.
Proof.
  rewrite <- string_of_runes_sanitize. apply runes_string_of_runes.
  apply Forall_fmap, Forall_forall. intros r _. apply sanitize_scalar.
Qed.

Lemma chunks_length s : (length (chunks s) <= String.length s)%nat.
Proof.
  apply (chunks_ind (fun s cs => (length cs <= String.length s)%nat));
    [reflexivity|].
  intros r bs rest Hd%decodes_length IH. rewrite length_append. cbn. lia.
Qed.

Lemma runes_length s : (length (runes s) <= String.length s)%nat.
Proof. unfold runes. rewrite length_fmap. apply chunks_length. Qed.

Lemma encode_letter r : isLetter r = true ->
  encode_rune r = String (byte_of r) EmptyString.
Proof.
  unfold isLetter, isUpper, isLower, encode_rune. chars. intros H.
  destruct (Z.leb_spec 0 r), (Z.leb_spec r 0x7F); cbn; try reflexivity;
    destruct (Z.leb_spec 65 r), (Z.leb_spec r 90),
      (Z.leb_spec 97 r), (Z.leb_spec r 122); cbn in H; try discriminate; lia.
Qed.

Lemma string_of_letters_length rs :
  Forall (fun r => isLetter r = true) rs ->
  String.length (string_of_runes rs) = length rs.
Proof.
  induction 1 as [|r rs Hr _ IH]; [reflexivity|].
  rewrite string_of_runes_cons, length_append, IH, encode_letter by exact Hr.
  reflexivity.
Qed.

(** ** [strings.Map] with the two filters of the program *)

Lemma Map_keepUpper w : Map keepUpper w = strip_nonletters w.
Proof.
  unfold Map, strip_nonletters. f_equal.
  induction (runes w) as [|r l IH]; [reflexivity|].
  rewrite fmap_cons, !filter_cons, IH. unfold keepUpper, isUpper. chars.
  destruct (Z.leb_spec 65 r), (Z.leb_spec r 90); cbn [andb];
    repeat case_decide; try reflexivity; try lia; congruence.
Qed.

Lemma Map_keepLetters s :
  Map keepLetters s =
    string_of_runes (filter (fun r => isLetter r = true) (runes s)).
Proof.
  unfold Map. f_equal.
  induction (runes s) as [|r l IH]; [reflexivity|].
  rewrite fmap_cons, !filter_cons, IH.
  unfold keepLetters, isLetter, isUpper, isLower. chars.
  destruct (Z.leb_spec 65 r), (Z.leb_spec r 90),
    (Z.leb_spec 97 r), (Z.leb_spec r 122); cbn [andb orb];
    repeat case_decide; try reflexivity; try lia; congruence.
Qed.

(** [len(lettersOnly)] is the number of letters of the ciphertext. *)
Lemma len_lettersOnly s : len (Map keepLetters s) = letter_count s.
Proof.
  unfold len, letter_count. rewrite Map_keepLetters. f_equal.
  apply string_of_letters_length.
  apply Forall_forall. intros r Hr.
  apply list_elem_of_filter in Hr. tauto.
Qed.

(** ** The common-word map *)

(** Looking a word up in the map is membership in the list of words. *)
Lemma lookup_word_map (ws : list string) (w : string) :
  default false
    ((list_to_map ((fun x => (x, true)) <$> ws) : gmap string bool) !! w)
  = bool_decide (w ∈ ws).
Proof.
  induction ws as [|x ws IH]; cbn [fmap list_fmap list_to_map foldr].
  - rewrite lookup_empty. cbn. rewrite bool_decide_eq_false_2; [done|].
    apply not_elem_of_nil.
  - destruct (decide (x = w)) as [->|Hne].
    + rewrite lookup_insert_eq. cbn. rewrite bool_decide_eq_true_2; [done|].
      apply list_elem_of_here.
    + rewrite lookup_insert_ne by exact Hne. rewrite IH.
      apply bool_decide_ext. rewrite elem_of_cons. split; [tauto|].
      intros [->|?]; [done|assumption].
Qed.

Lemma commonWords_lookup w :
  default false (commonWords !! Map keepUpper w) = is_common w.
Proof.
  unfold is_common. rewrite <- Map_keepUpper.
  exact (lookup_word_map common_word_set (Map keepUpper w)).
Qed.

(** ** [strings.Fields] *)

Lemma fields_from_length cs cur :
  (length (fields_from cs cur) <=
     length cs + match cur with Some _ => 1 | None => 0 end)%nat.
Proof.
  revert cur. induction cs as [|[r bs] cs IH]; intros cur; cbn [fields_from].
  - destruct cur; cbn; lia.
  - destruct (IsSpace r).
    + pose proof (IH None) as IH'. destruct cur; cbn [length] in *; lia.
    + pose proof (IH (Some (String.append (default EmptyString cur) bs)))
        as IH'.
      destruct cur; cbn [length] in *; lia.
Qed.

Lemma Fields_length s : (length (Fields s) <= length (runes s))%nat.
Proof.
  unfold Fields, runes. rewrite length_fmap.
  pose proof (fields_from_length (chunks s) None) as Hf. cbn in Hf. lia.
Qed.

Lemma Count_bound s c : 0 <= Count s c <= len s.
Proof.
  unfold len. induction s as [|x s IH]; cbn [Count String.length]; [lia|].
  destruct (Ascii.eqb x c); lia.
Qed.

Section Scorer.
Context {rt : Runtime}.

Lemma ToUpper_runes_length text :
  (length (runes (ToUpper text)) <= length (runes text))%nat.
Proof.
  unfold ToUpper, Map. rewrite runes_written, length_fmap.
  etransitivity; [apply length_filter|]. rewrite length_fmap. done.
Qed.

(** There are no more common tokens than bytes. *)
Lemma common_tokens_bound text : 0 <= common_tokens text <= len text.
Proof.
  unfold common_tokens, len. split; [lia|].
  apply inj_le.
  etransitivity; [apply length_filter|].
  etransitivity; [apply Fields_length|].
  etransitivity; [apply ToUpper_runes_length|]. apply runes_length.
Qed.

(** The loop over the words, from a running score that is an integer. *)
Lemma score_loop words k :
  0 <= k ->
  k + Z.of_nat (length (filter (fun w => is_common w = true) words)) < 2 ^ 53 ->
  fold_left (fun score word =>
      let word := Map keepUpper word in
      if default false (commonWords !! word)
      then float64.add score float64.c1 else score)
    words (float64.of_int k)
  = float64.of_int
      (k + Z.of_nat (length (filter (fun w => is_common w = true) words))).
Proof.
  revert k. induction words as [|w words IH]; intros k Hk Hb.
  - cbn. f_equal. lia.
  - cbn [fold_left]. rewrite commonWords_lookup. rewrite filter_cons in *.
    destruct (is_common w) eqn:E.
    + rewrite decide_True in * by reflexivity. cbn [length] in *.
      change float64.c1 with (float64.of_int 1).
      rewrite float64_facts.add_int by lia. rewrite IH by lia. f_equal. lia.
    + rewrite decide_False in * by discriminate. apply IH; assumption.
Qed.

Lemma score_loop_nonneg words x :
  float64.nonneg x ->
  float64.nonneg
    (fold_left (fun score word =>
        let word := Map keepUpper word in
        if default false (commonWords !! word)
        then float64.add score float64.c1 else score)
      words x).
Proof.
  revert x. induction words as [|w words IH]; intros x Hx; [exact Hx|].
  cbn [fold_left]. apply IH. destruct (default _ _); [|exact Hx].
  apply float64_facts.add_nonneg; [exact Hx|exact I].
Qed.

(** A score is never negative, and never [NaN]. *)
Lemma score_nonneg text : float64.nonneg (scoreDecipheredText text).
Proof.
  unfold scoreDecipheredText.
  pose proof (score_loop_nonneg (Fields (ToUpper text)) float64.c0 I) as Hs.
  destruct (_ && _); [|exact Hs].
  apply float64_facts.add_nonneg; [exact Hs|exact I].
Qed.

End Scorer.

(** ** The list of candidate shifts of the frequency search *)

(** The loop that adds the other shifts, from a list that starts with the
    preferred shift [e]. *)
Lemma potentialShifts_loop e l acc :
  fold_left (fun potentialShifts shift =>
      match potentialShifts with
      | [] => potentialShifts ++ [shift]
      | p0 :: _ =>
        if negb (shift =? p0) then potentialShifts ++ [shift]
        else potentialShifts
      end) l (e :: acc)
  = e :: acc ++ filter (fun x => x <> e) l.
Proof.
  revert acc. induction l as [|x l IH]; intros acc; cbn [fold_left].
  - rewrite filter_nil, app_nil_r. reflexivity.
  - rewrite filter_cons. destruct (Z.eqb_spec x e) as [->|Hne]; cbn [negb].
    + rewrite decide_False by auto. apply IH.
    + rewrite decide_True by exact Hne.
      rewrite <- app_comm_cons, IH, <- app_assoc. reflexivity.
Qed.

Lemma potentialShifts_of_cons c order :
  exists e, 0 <= e < 26 /\
    potentialShifts_of (String c order) =
      e :: filter (fun x => x <> e) (seqZ 0 26).
Proof.
  unfold potentialShifts_of. cbn [app].
  set (e := Z.rem (byte_val c - char "E") 26).
  exists (if e <? 0 then e + 26 else e). split.
  - destruct (Z.ltb_spec e 0); unfold e; zrem.
  - apply (potentialShifts_loop _ _ []).
Qed.

Lemma potentialShifts_of_empty : potentialShifts_of EmptyString = seqZ 0 26.
Proof. reflexivity. Qed.

(** Every shift occurs in the list, once. *)
Lemma potentialShifts_perm order : potentialShifts_of order ≡ₚ seqZ 0 26.
Proof.
  destruct order as [|c order]; [rewrite potentialShifts_of_empty; done|].
  destruct (potentialShifts_of_cons c order) as (e & He & ->).
  apply NoDup_Permutation.
  - apply NoDup_cons. split.
    + rewrite list_elem_of_filter. tauto.
    + apply NoDup_filter, NoDup_seqZ.
  - apply NoDup_seqZ.
  - intros x. rewrite elem_of_cons, list_elem_of_filter, !elem_of_seqZ.
    destruct (decide (x = e)); lia.
Qed.

(** ** The search loops *)

Section Search.
Context {rt : Runtime}.
Variable ciphertext : string.

Local Abbreviation sc := (score_at ciphertext).

Lemma sc_nonneg j : float64.nonneg (sc j).
Proof. apply score_nonneg. Qed.

(** One step of a search loop. *)
Lemma try_shift_better best j :
  float64.ltb best.1.1 (sc j) = true ->
  try_shift ciphertext best j = candidate ciphertext j.
Proof.
  destruct best as [[bs bk] bp]. cbn [fst]. intros Hlt.
  unfold try_shift, float64.gtb. fold (sc j).
  change (SFltb bs (sc j)) with (float64.ltb bs (sc j)). rewrite Hlt.
  reflexivity.
Qed.

Lemma try_shift_not_better best j :
  float64.ltb best.1.1 (sc j) = false ->
  try_shift ciphertext best j = best.
Proof.
  destruct best as [[bs bk] bp]. cbn [fst]. intros Hlt.
  unfold try_shift, float64.gtb. fold (sc j).
  change (SFltb bs (sc j)) with (float64.ltb bs (sc j)). rewrite Hlt.
  reflexivity.
Qed.

(** The first candidate always replaces the sentinel. *)
Lemma try_shift_sentinel j :
  try_shift ciphertext (float64.cm1, 0, EmptyString) j
    = candidate ciphertext j.
Proof.
  apply try_shift_better. cbn [fst].
  apply (float64_facts.gtb_sentinel (sc j)), sc_nonneg.
Qed.

(** The invariant of the search loops: the running best is the first
    maximum of the shifts tried so far. *)
Lemma first_max_step pre k j :
  first_max sc pre k ->
  first_max sc (pre ++ [j])
    (if float64.ltb (sc k) (sc j) then j else k).
Proof.
  intros (l1 & l2 & -> & H1 & H2).
  destruct (float64.ltb (sc k) (sc j)) eqn:E.
  - exists (l1 ++ k :: l2), []. split; [reflexivity|].
    split; [|intros i Hi; apply elem_of_nil in Hi; destruct Hi].
    intros i [Hi|[->|Hi]%elem_of_cons]%elem_of_app.
    + eapply float64_facts.ltb_trans; eauto using sc_nonneg.
    + exact E.
    + eapply float64_facts.ltb_le_trans; eauto using sc_nonneg.
  - exists l1, (l2 ++ [j]). split; [rewrite <- app_assoc; reflexivity|].
    split; [exact H1|].
    intros i [Hi|Hi%list_elem_of_singleton]%elem_of_app; subst; auto.
Qed.

Lemma search_from l pre k :
  first_max sc pre k ->
  exists k', fold_left (try_shift ciphertext) l (candidate ciphertext k)
               = candidate ciphertext k' /\
             first_max sc (pre ++ l) k'.
Proof.
  revert pre k. induction l as [|j l IH]; intros pre k Hk.
  - exists k. rewrite app_nil_r. auto.
  - cbn [fold_left]. apply (first_max_step _ _ j) in Hk.
    replace (pre ++ j :: l) with ((pre ++ [j]) ++ l)
      by (rewrite <- app_assoc; reflexivity).
    destruct (float64.ltb (sc k) (sc j)) eqn:E.
    + rewrite try_shift_better by exact E. apply IH, Hk.
    + rewrite try_shift_not_better by exact E. apply IH, Hk.
Qed.

(** A search over a list of shifts that is not empty ends on the first
    of the best candidates. *)
Lemma search_spec l :
  l <> [] ->
  exists k, fold_left (try_shift ciphertext) l
              (float64.cm1, 0, EmptyString) = candidate ciphertext k /\
            first_max sc l k.
Proof.
  destruct l as [|j l]; [congruence|]. intros _.
  cbn [fold_left]. rewrite try_shift_sentinel.
  apply (search_from l [j] j).
  exists [], []. split; [reflexivity|].
  split; intros i Hi; apply elem_of_nil in Hi; destruct Hi.
Qed.

Lemma first_max_elem l k : first_max sc l k -> k ∈ l.
Proof.
  intros (l1 & l2 & -> & _). apply elem_of_app. right. apply list_elem_of_here.
Qed.

Lemma first_max_greatest l k j :
  first_max sc l k -> j ∈ l -> float64.ltb (sc k) (sc j) = false.
Proof.
  intros (l1 & l2 & -> & H1 & H2) [Hj|[->|Hj]%elem_of_cons]%elem_of_app.
  - apply float64_facts.ltb_asym; auto using sc_nonneg.
  - apply float64_facts.ltb_irrefl, sc_nonneg.
  - auto.
Qed.

(** In an ascending search the shifts below the result score less. *)
Lemma first_max_seqZ n k j :
  first_max sc (seqZ 0 n) k -> 0 <= j < k ->
  float64.ltb (sc j) (sc k) = true.
Proof.
  intros (l1 & l2 & E & H1 & _) Hj. apply H1.
  assert (seqZ 0 n !! length l1 = Some k) as Hk
    by (rewrite E; apply list_lookup_middle; reflexivity).
  apply lookup_seqZ in Hk as (Hk & Hn).
  assert (seqZ 0 n !! Z.to_nat j = Some j) as Hlook
    by (apply lookup_seqZ; lia).
  rewrite E, lookup_app_l in Hlook by lia.
  eapply list_elem_of_lookup_2, Hlook.
Qed.

Lemma breakCipherBruteForce_search k :
  fold_left (try_shift ciphertext) (seqZ 0 26)
    (float64.cm1, 0, EmptyString) = candidate ciphertext k ->
  breakCipherBruteForce ciphertext = (decipherWithShift ciphertext k, k).
Proof. unfold breakCipherBruteForce. intros ->. reflexivity. Qed.

Lemma brute_force_spec :
  exists k,
    breakCipherBruteForce ciphertext = (decipherWithShift ciphertext k, k) /\
    first_max sc (seqZ 0 26) k.
Proof.
  destruct (search_spec (seqZ 0 26)) as (k & Hk & Hm); [discriminate|].
  exists k. split; [apply breakCipherBruteForce_search, Hk|exact Hm].
Qed.

Lemma frequency_spec :
  exists k,
    breakCipherFrequencyAnalysis ciphertext
      = (decipherWithShift ciphertext k, k) /\
    0 <= k < 26 /\
    forall j, 0 <= j < 26 -> float64.ltb (sc k) (sc j) = false.
Proof.
  unfold breakCipherFrequencyAnalysis.
  destruct (len (Map keepLetters ciphertext) <? 5).
  - destruct brute_force_spec as (k & Hk & Hm). exists k.
    split; [exact Hk|]. split.
    + apply first_max_elem, elem_of_seqZ in Hm. lia.
    + intros j Hj. eapply first_max_greatest; [exact Hm|].
      apply elem_of_seqZ. lia.
  - set (l := potentialShifts_of _).
    assert (l ≡ₚ seqZ 0 26) as Hp by apply potentialShifts_perm.
    destruct (search_spec l) as (k & Hk & Hm).
    { intros ->. apply Permutation_nil_l in Hp. discriminate. }
    exists k. rewrite Hk. split; [reflexivity|]. split.
    + apply first_max_elem in Hm. rewrite Hp in Hm.
      apply elem_of_seqZ in Hm. lia.
    + intros j Hj. eapply first_max_greatest; [exact Hm|].
      rewrite Hp. apply elem_of_seqZ. lia.
Qed.

End Search.

(** ** The frequency table and the frequency order *)

Section Frequencies.
Context {rt : Runtime}.

Lemma calculateFrequencies_loop rs freq :
  map_Forall (fun k _ => isUpper k = true) freq ->
  map_Forall (fun k _ => isUpper k = true)
    (fold_left (fun freq char_ =>
        if (char "A" <=? char_) && (char_ <=? char "Z") then incr freq char_
        else freq) rs freq).
Proof.
  revert freq. induction rs as [|r rs IH]; intros freq Hf; [exact Hf|].
  cbn [fold_left]. apply IH.
  destruct ((char "A" <=? r) && (r <=? char "Z")) eqn:E; [|exact Hf].
  unfold incr. apply map_Forall_insert_2; [exact E|exact Hf].
Qed.

(** The keys of the frequency table are upper case letters. *)
Lemma calculateFrequencies_keys text :
  map_Forall (fun k _ => isUpper k = true) (calculateFrequencies text).
Proof. apply calculateFrequencies_loop, map_Forall_empty. Qed.

Lemma pairs_loop (l : list (Z * Z)) acc :
  fold_left (fun pairs '(letter, count) =>
      pairs ++ [{| letter := letter; count := count |}]) l acc
  = acc ++ ((fun p => {| letter := p.1; count := p.2 |}) <$> l).
Proof.
  revert acc. induction l as [|[k n] l IH]; intros acc; cbn [fold_left].
  - rewrite app_nil_r. reflexivity.
  - rewrite IH, <- app_assoc. reflexivity.
Qed.

Lemma write_letters (l : list letterFreq) b :
  fold_left (fun result pair => WriteRune result (letter pair)) l b
  = fold_left WriteRune (letter <$> l) b.
Proof.
  revert b. induction l as [|p l IH]; intros b; [reflexivity|].
  cbn [fold_left fmap list_fmap]. apply IH.
Qed.

Lemma getFrequencyOrder_eq freq :
  getFrequencyOrder freq =
    string_of_runes
      (letter <$> sort_Slice (fun a b => count b <? count a)
         ((fun p => {| letter := p.1; count := p.2 |}) <$> map_range freq)).
Proof.
  unfold getFrequencyOrder. rewrite pairs_loop, write_letters. reflexivity.
Qed.

(** The first letter of the frequency order is a letter of the table
    that no letter of the table outnumbers. *)
Lemma getFrequencyOrder_first freq c rest :
  map_Forall (fun k _ => isUpper k = true) freq ->
  getFrequencyOrder freq = String c rest ->
  exists n, freq !! byte_val c = Some n /\
    forall k m, freq !! k = Some m -> m <= n.
Proof.
  intros Hkeys. rewrite getFrequencyOrder_eq.
  set (pairs :=
         (fun p => {| letter := p.1; count := p.2 |}) <$> map_range freq).
  pose proof (sort_Slice_perm (fun a b => count b <? count a) pairs) as Hperm.
  pose proof (sort_Slice_sorted pairs) as Hsorted.
  assert (forall p, p ∈ pairs <-> freq !! letter p = Some (count p)) as Hin.
  { intros [k n]. unfold pairs. rewrite list_elem_of_fmap. cbn. split.
    - intros ([k' n'] & [= -> ->] & Hin). cbn.
      rewrite map_range_perm in Hin. apply elem_of_map_to_list in Hin.
      exact Hin.
    - intros Hl. exists (k, n). split; [reflexivity|].
      rewrite map_range_perm. apply elem_of_map_to_list. exact Hl. }
  destruct (sort_Slice _ pairs) as [|p sorted]; [discriminate|].
  assert (p ∈ pairs) as Hp by (rewrite <- Hperm; apply list_elem_of_here).
  apply Hin in Hp.
  rewrite fmap_cons, string_of_runes_cons.
  pose proof (Hkeys _ _ Hp) as Hup. cbn in Hup.
  rewrite encode_letter by (unfold isLetter; rewrite Hup; reflexivity).
  rewrite append_String, append_empty. intros [= <- _].
  assert (byte_val (byte_of (letter p)) = letter p) as ->.
  { apply byte_val_of. revert Hup. unfold isUpper. chars.
    intros [?%Z.leb_le ?%Z.leb_le]%andb_prop. lia. }
  exists (count p). split; [exact Hp|].
  intros k m Hkm.
  assert ({| letter := k; count := m |} ∈ p :: sorted) as Hmem
    by (rewrite Hperm; apply Hin; exact Hkm).
  apply elem_of_cons in Hmem as [<-|Hmem]; [cbn; lia|].
  unfold sorted_by in Hsorted. apply StronglySorted_inv in Hsorted as [_ Hall].
  rewrite Forall_forall in Hall. specialize (Hall _ Hmem). cbn in Hall.
  apply Z.ltb_ge in Hall. exact Hall.
Qed.

End Frequencies.

(** ** The runtime instance *)

(** Insertion sort permutes its input and orders it by falling counts. *)
Lemma insert_by_perm less x l : insert_by less x l ≡ₚ x :: l.
Proof.
  induction l as [|y l IH]; cbn; [done|].
  destruct (less y x); [|done]. rewrite IH. apply Permutation_swap.
Qed.

Lemma insertion_sort_perm less l : insertion_sort less l ≡ₚ l.
Proof.
  induction l as [|x l IH]; cbn; [done|].
  fold (insertion_sort less l). rewrite insert_by_perm, IH. done.
Qed.

Lemma insert_by_sorted x l :
  sorted_by by_count l -> sorted_by by_count (insert_by by_count x l).
Proof.
  unfold sorted_by. induction 1 as [|y l Hl IH Hy]; cbn.
  - repeat constructor.
  - destruct (Z.ltb_spec (count x) (count y)).
    + constructor; [exact IH|].
      rewrite insert_by_perm. constructor; [|exact Hy]. lia.
    + constructor; [constructor; assumption|].
      constructor; [lia|].
      eapply Forall_impl; [exact Hy|]. cbn. intros z Hz. lia.
Qed.

Lemma insertion_sort_sorted l :
  sorted_by by_count (insertion_sort by_count l).
Proof.
  induction l as [|x l IH]; cbn; [constructor|].
  apply insert_by_sorted, IH.
Qed.

Definition basic_runtime : Runtime := {|
  unicode_ToUpper := ascii_ToUpper;
  map_range := map_to_list;
  sort_Slice := insertion_sort;
  unicode_ToUpper_ascii := fun r _ => eq_refl;
  map_range_perm := fun m => reflexivity _;
  sort_Slice_perm := insertion_sort_perm;
  sort_Slice_sorted := insertion_sort_sorted
|}.


(** ** The byte length of the output of the encoder *)

Lemma encode_shift_rune_length k r : 0 <= k ->
  String.length (encode_rune (shift_rune k r)) = String.length (encode_rune r).
Proof.
  intros Hk. destruct (isUpper r) eqn:U.
  { rewrite !encode_letter; [reflexivity| |].
    - unfold isLetter. rewrite U. reflexivity.
    - unfold isLetter. rewrite shift_rune_upper by assumption. reflexivity. }
  destruct (isLower r) eqn:L.
  { rewrite !encode_letter; [reflexivity| |].
    - unfold isLetter. rewrite L. apply orb_true_r.
    - unfold isLetter. rewrite shift_rune_lower by assumption.
      apply orb_true_r. }
  rewrite shift_rune_other; [reflexivity|]. unfold isLetter. rewrite U, L.
  reflexivity.
Qed.

Lemma len_applyCipher text shift :
  ValidString text = true -> len (applyCipher text shift) = len text.
Proof.
  intros Hv. unfold len. f_equal.
  rewrite <- (string_of_runes_runes text Hv) at 2.
  rewrite applyCipher_runes.
  pose proof (normalize_range shift) as Hk.
  induction (runes text) as [|r l IH]; [reflexivity|].
  rewrite fmap_cons, !string_of_runes_cons, !length_append, IH.
  rewrite encode_shift_rune_length by lia. reflexivity.
Qed.

(** What the encoder writes is well-formed UTF-8. *)
Lemma applyCipher_valid text shift :
  ValidString (applyCipher text shift) = true.
Proof.
  rewrite applyCipher_runes. apply ValidString_string_of_runes.
  apply Forall_fmap. eapply Forall_impl; [apply runes_scalar|].
  intros r Hr. apply shift_rune_scalar; [|exact Hr].
  pose proof (normalize_range shift). lia.
Qed.

(** Shifts that differ by 26 encode alike. *)
Lemma applyCipher_period text shift :
  applyCipher text (shift + 26) = applyCipher text shift /\
  applyCipher text (shift - 26) = applyCipher text shift.
Proof.
  rewrite !applyCipher_runes, !normalize_mod.
  replace (shift + 26) with (shift + 1 * 26) by lia.
  replace (shift - 26) with (shift + (-1) * 26) by lia.
  rewrite !Z.mod_add by lia. split; reflexivity.
Qed.

(** The constants of the scorer are the binary64 values of the literals
    of the source. *)
Lemma float64_constants :
  float64.c0 = float64.of_int 0 /\ float64.c1 = float64.of_int 1 /\
  float64.c2 = float64.of_int 2 /\
  float64.cm1 = SFopp (float64.of_int 1) /\
  float64.c0_1 = float64.div (float64.of_int 1) (float64.of_int 10) /\
  float64.c0_25 = float64.div (float64.of_int 1) (float64.of_int 4).
Proof. repeat split; reflexivity. Qed.

(** ** Sample runs *)

Example encode_sample :
  applyCipher "Hello, World!" 3 = "Khoor, Zruog!" /\
  applyCipher "Hello, World!" (-23) = "Khoor, Zruog!" /\
  decipherWithShift "Khoor, Zruog!" 3 = "Hello, World!".
Proof. repeat split; reflexivity. Qed.

Example score_sample :
  scoreDecipheredText (rt := basic_runtime) "THE AND OF" = float64.of_int 5 /\
  scoreDecipheredText (rt := basic_runtime) "ZQX VWK PLM" = float64.of_int 2.
Proof. split; vm_compute; reflexivity. Qed.

Example search_sample :
  breakCipherBruteForce (rt := basic_runtime)
    (applyCipher "THE QUICK BROWN FOX" 7) = ("THE QUICK BROWN FOX", 7) /\
  breakCipherFrequencyAnalysis (rt := basic_runtime)
    (applyCipher "THE QUICK BROWN FOX" 7) = ("THE QUICK BROWN FOX", 7).
Proof. split; vm_compute; reflexivity. Qed.

(** ** The properties of the specification *)

(** C1 (as amended).  Round trip: for every well-formed UTF-8 text [T] and
    every integer shift [s], decoding the encoding of [T] with the same
    shift gives [T] back. *)
Theorem roundtrip_well_formed (T : string) (s : Z) :
  ValidString T = true -> decipherWithShift (applyCipher T s) s = T.
Proof.
  intros HT. rewrite decipherWithShift_runes, runes_applyCipher.
  rewrite <- list_fmap_compose.
  rewrite (list_fmap_ext _ id (runes T)).
  - rewrite list_fmap_id. apply string_of_runes_runes, HT.
  - intros i x _. cbn. apply shift_rune_inverse, normalize_range.
Qed.

Lemma roundtrip_well_formed_witness :
  ValidString "Héllo, Wörld! 日本" = true /\
  decipherWithShift (applyCipher "Héllo, Wörld! 日本" (-29)) (-29)
    = "Héllo, Wörld! 日本".
Proof.
  split; [reflexivity|].
  apply (roundtrip_well_formed "Héllo, Wörld! 日本" (-29)). reflexivity.
Defined.

(** C1 as stated fails on a text that is not well-formed UTF-8: the byte
    [0xFF] is read as [RuneError] and written back as three bytes. *)
Lemma roundtrip_ill_formed :
  decipherWithShift (applyCipher (String "255" EmptyString) 3) 3
    <> String "255" EmptyString.
Proof. vm_compute. discriminate. Qed.

(** C3.  Decoding with shift [s] is encoding with the complementary
    shift, whether the remainder is taken as in mathematics or as Go's
    [%] takes it. *)
Theorem decoding_is_complementary_encoding (text : string) (s : Z) :
  decipherWithShift text s = applyCipher text ((26 - s mod 26) mod 26) /\
  decipherWithShift text s
    = applyCipher text (Z.rem (26 - Z.rem s 26) 26).
Proof.
  split; [apply decipher_is_cipher|].
  rewrite decipherWithShift_runes, applyCipher_runes. f_equal.
  apply list_fmap_ext. intros _ r _.
  pose proof (normalize_range s).
  pose proof (normalize_range (Z.rem (26 - Z.rem s 26) 26)).
  apply shift_rune_mod; [lia|lia|].
  rewrite !normalize_mod. zrem.
Qed.

(** C8.  Shape preservation: the output of the encoder has one character
    for each character of the input; a character that is not an ASCII
    letter is unchanged at its position, an upper case letter becomes an
    upper case letter and a lower case letter a lower case letter. *)
Theorem shape_preserved (text : string) (shift : Z) :
  length (runes (applyCipher text shift)) = length (runes text) /\
  Forall2 same_shape (runes text) (runes (applyCipher text shift)).
Proof.
  rewrite runes_applyCipher. split; [apply length_fmap|].
  apply Forall2_fmap_r, Forall_Forall2_diag, Forall_forall.
  intros r _. pose proof (normalize_range shift) as Hk.
  unfold same_shape. destruct (isUpper r) eqn:U.
  { apply shift_rune_upper; [lia|exact U]. }
  destruct (isLower r) eqn:L.
  { apply shift_rune_lower; [lia|exact L]. }
  apply shift_rune_other. unfold isLetter. rewrite U, L. reflexivity.
Qed.

Section Properties.
Context {rt : Runtime}.

(** C10.  Score lower bound: a score is at least [0.0], hence strictly
    above the sentinel [-1.0], and the first shift a search tries
    becomes the running best. *)
Theorem score_lower_bound (text : string) :
  SFleb float64.c0 (scoreDecipheredText text) = true /\
  float64.gtb (scoreDecipheredText text) float64.cm1 = true /\
  forall ciphertext shift,
    try_shift ciphertext (float64.cm1, 0, EmptyString) shift
      = candidate ciphertext shift.
Proof.
  pose proof (score_nonneg text) as Hs. split; [|split].
  - destruct (scoreDecipheredText text) as [[]|[]| |[] m e];
      cbn in Hs |- *; tauto.
  - apply float64_facts.gtb_sentinel, Hs.
  - intros ciphertext shift. apply try_shift_sentinel.
Qed.

(** C5.  First-seen maximum: the exhaustive search returns the candidate
    of a shift [k] in [0..25] whose score no shift exceeds and which
    every smaller shift scores strictly below; a candidate replaces the
    running best exactly when its score is strictly greater, and shift
    [0] replaces the sentinel. *)
Theorem brute_force_first_maximum (ciphertext : string) :
  exists k,
    breakCipherBruteForce ciphertext = (decipherWithShift ciphertext k, k) /\
    0 <= k < 26 /\
    Forall (fun j => float64.ltb (score_at ciphertext k)
                       (score_at ciphertext j) = false) (seqZ 0 26) /\
    Forall (fun j => float64.ltb (score_at ciphertext j)
                       (score_at ciphertext k) = true) (seqZ 0 k) /\
    (forall best j,
       try_shift ciphertext best j =
         if float64.gtb (score_at ciphertext j) best.1.1
         then candidate ciphertext j else best) /\
    try_shift ciphertext (float64.cm1, 0, EmptyString) 0
      = candidate ciphertext 0.
Proof.
  destruct (brute_force_spec ciphertext) as (k & Hk & Hm). exists k.
  split; [exact Hk|].
  assert (0 <= k < 26) as Hr
    by (apply first_max_elem, elem_of_seqZ in Hm; lia).
  split; [exact Hr|]. split; [|split; [|split]].
  - apply Forall_forall. intros j Hj.
    eapply first_max_greatest; [exact Hm|exact Hj].
  - apply Forall_forall. intros j Hj%elem_of_seqZ.
    eapply first_max_seqZ; [exact Hm|lia].
  - intros [[bs bk] bp] j. reflexivity.
  - apply try_shift_sentinel.
Qed.

(** C9.  Result consistency: each search returns a shift in [0..25]
    together with the text decoded with that shift. *)
Theorem results_consistent (ciphertext : string) :
  (exists k, 0 <= k < 26 /\
     breakCipherBruteForce ciphertext
       = (decipherWithShift ciphertext k, k)) /\
  (exists k, 0 <= k < 26 /\
     breakCipherFrequencyAnalysis ciphertext
       = (decipherWithShift ciphertext k, k)).
Proof.
  split.
  - destruct (brute_force_spec ciphertext) as (k & Hk & Hm). exists k.
    split; [|exact Hk]. apply first_max_elem, elem_of_seqZ in Hm. lia.
  - destruct (frequency_spec ciphertext) as (k & Hk & Hr & _). eauto.
Qed.

(** C2.  Coverage: the list of candidate shifts of the frequency search
    holds every shift of [0..25] once, whatever the frequency order is;
    the frequency search returns the candidate of a shift whose score no
    shift exceeds, and that score is the score of the result of the
    exhaustive search. *)
Theorem frequency_search_coverage (ciphertext : string) :
  (forall freqOrder, potentialShifts_of freqOrder ≡ₚ seqZ 0 26) /\
  exists k,
    breakCipherFrequencyAnalysis ciphertext
      = (decipherWithShift ciphertext k, k) /\
    0 <= k < 26 /\
    Forall (fun j => float64.ltb (score_at ciphertext k)
                       (score_at ciphertext j) = false) (seqZ 0 26) /\
    score_at ciphertext k
      = scoreDecipheredText (breakCipherBruteForce ciphertext).1.
Proof.
  split; [apply potentialShifts_perm|].
  destruct (frequency_spec ciphertext) as (k & Hk & Hr & Hmax).
  exists k. split; [exact Hk|]. split; [exact Hr|].
  destruct (brute_force_spec ciphertext) as (k' & -> & Hm). cbn [fst].
  assert (0 <= k' < 26) as Hr'
    by (apply first_max_elem, elem_of_seqZ in Hm; lia).
  split.
  - apply Forall_forall. intros j Hj%elem_of_seqZ. apply Hmax. lia.
  - apply float64_facts.ltb_total; try apply score_nonneg.
    + apply (Hmax k'). lia.
    + eapply first_max_greatest; [exact Hm|]. apply elem_of_seqZ. lia.
Qed.

(** C6.  Short input: on a ciphertext with fewer than five letters the
    frequency search returns what the exhaustive search returns. *)
Theorem short_input_fallback (ciphertext : string) :
  letter_count ciphertext < 5 ->
  breakCipherFrequencyAnalysis ciphertext = breakCipherBruteForce ciphertext.
Proof.
  intros Hn. unfold breakCipherFrequencyAnalysis.
  rewrite len_lettersOnly.
  destruct (Z.ltb_spec (letter_count ciphertext) 5); [reflexivity|lia].
Qed.

(** C7.  Empty input: the encoder maps the empty text to itself for
    every shift; in the scorer the ratio of the empty text is [0.0 / 0.0],
    which is [NaN] and no failure, no bonus is given and the score is
    [0.0]; the exhaustive search returns the empty text and shift [0]. *)
Theorem empty_input :
  (forall s, applyCipher EmptyString s = EmptyString) /\
  float64.div (float64.of_int (Count EmptyString " "))
    (float64.of_int (len EmptyString)) = S754_nan /\
  scoreDecipheredText EmptyString = float64.c0 /\
  breakCipherBruteForce EmptyString = (EmptyString, 0).
Proof.
  split; [intros s; reflexivity|]. split; [reflexivity|].
  split; [reflexivity|]. vm_compute. reflexivity.
Qed.

(** C4 (as amended).  The scorer: for every text shorter than [2^52]
    bytes the score is the number of common tokens, plus [2.0] exactly
    when the ratio of the number of spaces to the length of the text in
    bytes lies strictly between one tenth and one quarter. *)
Theorem scorer_formula (text : string) :
  len text < 2 ^ 52 -> scoreDecipheredText text = score_by len text.
Proof.
  intros Hlen. pose proof (common_tokens_bound text) as Hb.
  pose proof (Count_bound text " ") as Hc.
  assert (0 <= len text) as Hl by (unfold len; lia).
  change (2 ^ 52) with 4503599627370496 in *.
  unfold scoreDecipheredText, score_by, space_bonus.
  change float64.c0 with (float64.of_int 0).
  rewrite score_loop; [|lia|unfold common_tokens in Hb; lia].
  rewrite Z.add_0_l. fold (common_tokens text).
  rewrite float64_facts.ratio_gt_tenth, float64_facts.ratio_lt_quarter;
    try (change (2 ^ 52) with 4503599627370496; lia).
  destruct (_ && _); [|rewrite Z.add_0_r; reflexivity].
  change float64.c2 with (float64.of_int 2).
  apply float64_facts.add_int; lia.
Qed.

End Properties.

Lemma short_input_fallback_witness :
  letter_count "AB!" < 5 /\
  breakCipherFrequencyAnalysis (rt := basic_runtime) "AB!"
    = breakCipherBruteForce (rt := basic_runtime) "AB!".
Proof.
  split; [reflexivity|].
  apply (short_input_fallback (rt := basic_runtime) "AB!"). reflexivity.
Defined.

Lemma scorer_formula_witness :
  len "THE AND OF" < 2 ^ 52 /\
  scoreDecipheredText (rt := basic_runtime) "THE AND OF"
    = score_by (rt := basic_runtime) len "THE AND OF".
Proof.
  split; [reflexivity|].
  apply (scorer_formula (rt := basic_runtime) "THE AND OF"). reflexivity.
Defined.

(** C4 as stated, with the number of characters as the total, fails on a
    text with characters of several bytes: eleven characters of which two
    are spaces, in twenty-nine bytes. *)
Lemma scorer_counts_bytes :
  scoreDecipheredText (rt := basic_runtime) "日本語 日本語 日本語"
    <> score_by (rt := basic_runtime) char_count "日本語 日本語 日本語".
Proof. vm_compute. discriminate. Qed.

(** * Further properties of the code *)

(** ** Shifts compose *)

Lemma shift_rune_compose a b r : 0 <= a -> 0 <= b ->
  shift_rune b (shift_rune a r) = shift_rune (a + b) r.
Proof.
  intros Ha Hb. unfold shift_rune at 2 3. chars.
  destruct (Z.leb_spec 65 r), (Z.leb_spec r 90); cbn [andb].
  1: { unfold shift_rune. chars.
       set (x := 65 + Z.rem (r - 65 + a) 26).
       assert (65 <= x <= 90) by (unfold x; zrem).
       destruct (Z.leb_spec 65 x), (Z.leb_spec x 90); try lia. cbn [andb].
       unfold x. zrem. }
  all: destruct (Z.leb_spec 97 r), (Z.leb_spec r 122); cbn [andb].
  all: try (unfold shift_rune; chars;
       set (x := 97 + Z.rem (r - 97 + a) 26);
       assert (97 <= x <= 122) by (unfold x; zrem);
       destruct (Z.leb_spec 65 x), (Z.leb_spec x 90); try lia; cbn [andb];
       destruct (Z.leb_spec 97 x), (Z.leb_spec x 122); try lia; cbn [andb];
       unfold x; zrem).
  all: unfold shift_rune; chars.
  all: destruct (Z.leb_spec 65 r), (Z.leb_spec r 90); try lia; cbn [andb].
  all: destruct (Z.leb_spec 97 r), (Z.leb_spec r 122); try lia; cbn [andb].
  all: reflexivity.
Qed.

Lemma shift_rune_zero k r : 0 <= k -> k mod 26 = 0 -> shift_rune k r = r.
Proof.
  intros Hk E. unfold shift_rune. chars.
  destruct (Z.leb_spec 65 r), (Z.leb_spec r 90); cbn [andb]; [zrem|..].
  all: destruct (Z.leb_spec 97 r), (Z.leb_spec r 122); cbn [andb];
    try reflexivity; zrem.
Qed.

(** A shift that is not a multiple of 26 moves every letter. *)
Lemma shift_rune_moves k r : 0 <= k -> k mod 26 <> 0 ->
  isLetter r = true -> shift_rune k r <> r.
Proof.
  intros Hk E. unfold isLetter, isUpper, isLower, shift_rune. chars.
  destruct (Z.leb_spec 65 r), (Z.leb_spec r 90); cbn [andb orb];
    intros Hl; try zrem.
  all: destruct (Z.leb_spec 97 r), (Z.leb_spec r 122); cbn [andb] in *;
    try discriminate; zrem.
Qed.

(** The string written for the runes of [T] shifted by [k]. *)
Lemma shifted_mod k k' l : 0 <= k -> 0 <= k' -> k mod 26 = k' mod 26 ->
  string_of_runes (shift_rune k <$> l) = string_of_runes (shift_rune k' <$> l).
Proof.
  intros Hk Hk' E. f_equal. apply list_fmap_ext. intros _ r _.
  apply shift_rune_mod; assumption.
Qed.

Lemma runes_shifted k T : 0 <= k ->
  runes (string_of_runes (shift_rune k <$> runes T))
    = shift_rune k <$> runes T.
Proof.
  intros Hk. apply runes_string_of_runes.
  apply Forall_fmap. eapply Forall_impl; [apply runes_scalar|].
  intros r Hr. apply shift_rune_scalar; assumption.
Qed.

Lemma shifted_twice a b T : 0 <= a -> 0 <= b ->
  string_of_runes
    (shift_rune b <$> runes (string_of_runes (shift_rune a <$> runes T)))
  = string_of_runes (shift_rune (a + b) <$> runes T).
Proof.
  intros Ha Hb. rewrite runes_shifted by exact Ha.
  rewrite <- list_fmap_compose. f_equal. apply list_fmap_ext.
  intros _ r _. cbn. apply shift_rune_compose; assumption.
Qed.

Lemma shifted_id k T : 0 <= k -> k mod 26 = 0 -> ValidString T = true ->
  string_of_runes (shift_rune k <$> runes T) = T.
Proof.
  intros Hk E Hv. rewrite <- (string_of_runes_runes T Hv) at 2. f_equal.
  rewrite <- (list_fmap_id (runes T)) at 2.
  apply list_fmap_ext. intros _ r _. apply shift_rune_zero; assumption.
Qed.

(** X1.  Encoder and decoder depend on the shift only through its residue
    modulo 26: two shifts with the same residue give the same output, on
    every text. *)
Theorem shift_residue (text : string) (s s' : Z) :
  s mod 26 = s' mod 26 ->
  applyCipher text s = applyCipher text s' /\
  decipherWithShift text s = decipherWithShift text s'.
Proof.
  intros E.
  rewrite !applyCipher_runes, !decipherWithShift_runes, !normalize_mod, E.
  split; reflexivity.
Qed.

Lemma shift_residue_witness :
  (-3) mod 26 = 75 mod 26 /\
  applyCipher "Attack at dawn!" (-3) = applyCipher "Attack at dawn!" 75 /\
  decipherWithShift "Attack at dawn!" (-3)
    = decipherWithShift "Attack at dawn!" 75.
Proof.
  split; [reflexivity|].
  apply (shift_residue "Attack at dawn!" (-3) 75). reflexivity.
Defined.




(** X5.  For a shift that is a multiple of 26 the encoder returns its input
    exactly when the input is well-formed UTF-8. *)
Theorem identity_shift (text : string) (s : Z) :
  s mod 26 = 0 ->
  (applyCipher text s = text <-> ValidString text = true).
Proof.
  intros E. split.
  - intros <-. apply applyCipher_valid.
  - intros Hv. rewrite applyCipher_runes.
    pose proof (normalize_range s).
    apply shifted_id; [lia| |exact Hv].
    rewrite normalize_mod, Z.mod_mod by lia. exact E.
Qed.

Lemma identity_shift_witness :
  52 mod 26 = 0 /\
  (applyCipher "Hello, World!" 52 = "Hello, World!"
   <-> ValidString "Hello, World!" = true).
Proof.
  split; [reflexivity|].
  apply (identity_shift "Hello, World!" 52). reflexivity.
Defined.

(** X6.  The other round trip: on a well-formed text, encoding what the
    decoder returned for the same shift restores the text. *)
Theorem reverse_roundtrip (T : string) (s : Z) :
  ValidString T = true ->
  applyCipher (decipherWithShift T s) s = T.
Proof.
  intros Hv.
  pose proof (normalize_range s).
  rewrite applyCipher_runes, decipherWithShift_runes.
  rewrite shifted_twice by lia.
  apply shifted_id; [lia| |exact Hv].
  replace (26 - normalize s + normalize s) with (1 * 26) by lia.
  apply Z.mod_mul. lia.
Qed.

Lemma reverse_roundtrip_witness :
  ValidString "Khoor, Zruog!" = true /\
  applyCipher (decipherWithShift "Khoor, Zruog!" 3) 3 = "Khoor, Zruog!".
Proof.
  split; [reflexivity|].
  apply (reverse_roundtrip "Khoor, Zruog!" 3). reflexivity.
Defined.

(** ** The bytes of the output *)

Lemma encode_RuneError_length : String.length (encode_rune RuneError) = 3%nat.
Proof. reflexivity. Qed.

(** What is written for a decoding step is at least as long as the bytes
    read, and at most three times as long. *)
Lemma shifted_chunk_length k r bs : 0 <= k -> decodes r bs ->
  (String.length bs <= String.length (encode_rune (shift_rune k r))
     <= 3 * String.length bs)%nat.
Proof.
  intros Hk [_ Hd]. rewrite encode_shift_rune_length by exact Hk.
  destruct Hd as [->|(-> & c & ->)]; [lia|].
  rewrite encode_RuneError_length. cbn. lia.
Qed.

Lemma shifted_length k s : 0 <= k ->
  (String.length s
     <= String.length (string_of_runes (shift_rune k <$> runes s))
     <= 3 * String.length s)%nat.
Proof.
  intros Hk. unfold runes.
  apply (chunks_ind (fun s cs =>
    (String.length s
       <= String.length (string_of_runes (shift_rune k <$> cs.*1))
       <= 3 * String.length s)%nat)); [cbn; lia|].
  intros r bs rest Hd IH. cbn [fmap list_fmap fst].
  rewrite string_of_runes_cons, !length_append.
  pose proof (shifted_chunk_length k r bs Hk Hd). lia.
Qed.

(** On a well-formed text the decoding round trip is exact. *)
Lemma decipher_applyCipher T s :
  ValidString T = true -> decipherWithShift (applyCipher T s) s = T.
Proof.
  intros Hv. pose proof (normalize_range s).
  rewrite decipherWithShift_runes, applyCipher_runes.
  rewrite shifted_twice by lia.
  apply shifted_id; [lia| |exact Hv].
  replace (normalize s + (26 - normalize s)) with (1 * 26) by lia.
  apply Z.mod_mul. lia.
Qed.

(** X7.  Whatever the input, encoder and decoder return well-formed
    UTF-8. *)
Theorem outputs_well_formed (text : string) (shift : Z) :
  ValidString (applyCipher text shift) = true /\
  ValidString (decipherWithShift text shift) = true.
Proof.
  pose proof (normalize_range shift) as Hk.
  rewrite applyCipher_runes, decipherWithShift_runes.
  split; apply ValidString_string_of_runes, Forall_fmap.
  all: eapply Forall_impl; [apply runes_scalar|].
  all: intros r Hr; apply shift_rune_scalar; [lia|exact Hr].
Qed.

(** X8.  The output of the encoder and of the decoder has at least as many
    bytes as the input and at most three times as many (a byte that is not
    part of a well-formed sequence is written as the three bytes of
    U+FFFD). *)
Theorem output_length_bounds (text : string) (shift : Z) :
  len text <= len (applyCipher text shift) <= 3 * len text /\
  len text <= len (decipherWithShift text shift) <= 3 * len text.
Proof.
  pose proof (normalize_range shift) as Hk.
  rewrite applyCipher_runes, decipherWithShift_runes. unfold len.
  pose proof (shifted_length (normalize shift) text).
  pose proof (shifted_length (26 - normalize shift) text).
  lia.
Qed.

(** X9.  On well-formed UTF-8 the encoder and the decoder keep the number
    of bytes. *)
Theorem output_length_well_formed (text : string) (shift : Z) :
  ValidString text = true ->
  len (applyCipher text shift) = len text /\
  len (decipherWithShift text shift) = len text.
Proof.
  intros Hv. split; [apply len_applyCipher, Hv|].
  rewrite decipher_is_cipher. apply len_applyCipher, Hv.
Qed.

Lemma output_length_well_formed_witness :
  ValidString "Zoë & Jürgen" = true /\
  len (applyCipher "Zoë & Jürgen" 11) = len "Zoë & Jürgen" /\
  len (decipherWithShift "Zoë & Jürgen" 11) = len "Zoë & Jürgen".
Proof.
  split; [reflexivity|].
  apply (output_length_well_formed "Zoë & Jürgen" 11). reflexivity.
Defined.

(** X10.  The decoder keeps the shape of its input as the encoder does: one
    character for each character, upper case letters for upper case
    letters, lower case for lower case, every other character unchanged. *)
Theorem decoder_shape_preserved (text : string) (shift : Z) :
  length (runes (decipherWithShift text shift)) = length (runes text) /\
  Forall2 same_shape (runes text) (runes (decipherWithShift text shift)).
Proof.
  rewrite runes_decipherWithShift. split; [apply length_fmap|].
  apply Forall2_fmap_r, Forall_Forall2_diag, Forall_forall.
  intros r _. pose proof (normalize_range shift) as Hk.
  unfold same_shape. destruct (isUpper r) eqn:U.
  { apply shift_rune_upper; [lia|exact U]. }
  destruct (isLower r) eqn:L.
  { apply shift_rune_lower; [lia|exact L]. }
  apply shift_rune_other. unfold isLetter. rewrite U, L. reflexivity.
Qed.

(** X11.  With a shift that is not a multiple of 26 the encoder leaves no
    letter in place: at every position that holds an ASCII letter the
    output holds another character. *)
Theorem no_letter_in_place (text : string) (shift : Z) :
  shift mod 26 <> 0 ->
  Forall2 (fun r r' => isLetter r = true -> r' <> r)
    (runes text) (runes (applyCipher text shift)).
Proof.
  intros Hs. rewrite runes_applyCipher.
  apply Forall2_fmap_r, Forall_Forall2_diag, Forall_forall.
  intros r _ Hl. pose proof (normalize_range shift) as Hk.
  apply shift_rune_moves; [lia| |exact Hl].
  rewrite normalize_mod, Z.mod_mod by lia. exact Hs.
Qed.

Lemma no_letter_in_place_witness :
  27 mod 26 <> 0 /\
  Forall2 (fun r r' => isLetter r = true -> r' <> r)
    (runes "az AZ") (runes (applyCipher "az AZ" 27)).
Proof.
  split; [discriminate|].
  apply (no_letter_in_place "az AZ" 27). discriminate.
Defined.

(** X12.  For a fixed shift the encoder is injective on well-formed texts:
    two different well-formed texts have different encodings. *)
Theorem encoder_injective (T T' : string) (s : Z) :
  ValidString T = true -> ValidString T' = true ->
  T <> T' -> applyCipher T s <> applyCipher T' s.
Proof.
  intros Hv Hv' Hne E. apply Hne.
  rewrite <- (decipher_applyCipher T s Hv), <- (decipher_applyCipher T' s Hv').
  rewrite E. reflexivity.
Qed.

Lemma encoder_injective_witness :
  ValidString "attack" = true /\ ValidString "attach" = true /\
  "attack"%string <> "attach"%string /\
  applyCipher "attack" 5 <> applyCipher "attach" 5.
Proof.
  split; [reflexivity|]. split; [reflexivity|]. split; [discriminate|].
  apply (encoder_injective "attack" "attach" 5);
    [reflexivity|reflexivity|discriminate].
Defined.

(** ** The frequency table, entry by entry *)

Lemma occurrences_cons k r rs :
  occurrences k (r :: rs)
    = (if decide (r = k) then 1 else 0) + occurrences k rs.
Proof.
  unfold occurrences. rewrite filter_cons.
  destruct (decide (r = k)); cbn [length]; lia.
Qed.

Lemma occurrences_nonneg k rs : 0 <= occurrences k rs.
Proof. unfold occurrences. lia. Qed.

(** The counting loop, from any table. *)
Lemma count_loop rs freq k :
  fold_left (fun freq char_ =>
      if (char "A" <=? char_) && (char_ <=? char "Z") then incr freq char_
      else freq) rs freq !! k
  = if isUpper k && (0 <? occurrences k rs)
    then Some (default 0 (freq !! k) + occurrences k rs)
    else freq !! k.
Proof.
  revert freq. induction rs as [|r rs IH]; intros freq.
  - cbn. rewrite andb_false_r. reflexivity.
  - cbn [fold_left]. rewrite IH, occurrences_cons. clear IH.
    pose proof (occurrences_nonneg k rs) as Hn.
    fold (isUpper r). destruct (decide (r = k)) as [->|Hne].
    + destruct (isUpper k) eqn:U; cbn [andb]; [|reflexivity].
      unfold incr. rewrite lookup_insert_eq. cbn [default].
      destruct (Z.ltb_spec 0 (occurrences k rs)),
        (Z.ltb_spec 0 (1 + occurrences k rs)); try lia; f_equal;
        unfold id; lia.
    + rewrite Z.add_0_l.
      assert ((if isUpper r then incr freq r else freq) !! k = freq !! k)
        as ->; [|reflexivity].
      destruct (isUpper r); [|reflexivity].
      unfold incr. apply lookup_insert_ne. exact Hne.
Qed.

(** Removing the negative runes and replacing what is not a scalar value
    changes no count of a letter. *)
Lemma occurrences_written k l : isUpper k = true ->
  occurrences k (sanitize <$> filter (fun r => 0 <= r) l) = occurrences k l.
Proof.
  intros U. assert (65 <= k <= 90) as Hk.
  { revert U. unfold isUpper. chars.
    intros [?%Z.leb_le ?%Z.leb_le]%andb_prop. lia. }
  induction l as [|x l IH]; [reflexivity|].
  rewrite filter_cons, (occurrences_cons k x).
  destruct (decide (0 <= x)) as [Hx|Hx].
  - rewrite fmap_cons, occurrences_cons, IH. f_equal.
    unfold sanitize, RuneError, MaxRune.
    destruct (Z.ltb_spec x 0), (Z.ltb_spec 1114111 x),
      (Z.leb_spec 55296 x), (Z.leb_spec x 57343); cbn [andb orb];
      repeat case_decide; try reflexivity; lia.
  - rewrite IH. rewrite decide_False by lia. lia.
Qed.

Section Table.
Context {rt : Runtime}.

Lemma calculateFrequencies_lookup text k :
  calculateFrequencies text !! k =
    if isUpper k && (0 <? occurrences k (unicode_ToUpper <$> runes text))
    then Some (occurrences k (unicode_ToUpper <$> runes text))
    else None.
Proof.
  unfold calculateFrequencies. rewrite count_loop, lookup_empty. cbn [default].
  destruct (isUpper k) eqn:U; [|reflexivity]. cbn [andb].
  unfold ToUpper, Map. rewrite runes_written.
  rewrite occurrences_written by exact U. rewrite Z.add_0_l. reflexivity.
Qed.

(** The upper case of an ASCII letter is an upper case letter. *)
Lemma ToUpper_letter r : isLetter r = true ->
  isUpper (unicode_ToUpper r) = true.
Proof.
  intros Hl. assert (0 <= r < RuneSelf) as Hr.
  { revert Hl. unfold isLetter, isUpper, isLower, RuneSelf. chars.
    destruct (Z.leb_spec 65 r), (Z.leb_spec r 90),
      (Z.leb_spec 97 r), (Z.leb_spec r 122); cbn; try discriminate; lia. }
  rewrite unicode_ToUpper_ascii by exact Hr.
  set (x := if (char "a" <=? r) && (r <=? char "z") then r - 32 else r).
  assert (65 <= x <= 90) as Hx.
  { revert Hl. unfold x, isLetter, isUpper, isLower. chars.
    destruct (Z.leb_spec 65 r), (Z.leb_spec r 90),
      (Z.leb_spec 97 r), (Z.leb_spec r 122); cbn; try discriminate; lia. }
  unfold isUpper. chars. apply andb_true_intro. split; apply Z.leb_le; lia.
Qed.

(** A text with a letter has a table with an entry. *)
Lemma calculateFrequencies_nonempty text :
  0 < letter_count text -> calculateFrequencies text <> ∅.
Proof.
  unfold letter_count. intros Hn.
  destruct (filter _ (runes text)) as [|r l] eqn:E; [cbn in Hn; lia|].
  assert (r ∈ filter (fun r => isLetter r = true) (runes text)) as Hr
    by (rewrite E; apply list_elem_of_here).
  apply list_elem_of_filter in Hr as [Hl Hr].
  pose proof (calculateFrequencies_lookup text (unicode_ToUpper r)) as Hk.
  rewrite (ToUpper_letter r Hl) in Hk. cbn [andb] in Hk.
  assert (0 < occurrences (unicode_ToUpper r) (unicode_ToUpper <$> runes text))
    as Hpos.
  { unfold occurrences.
    assert (unicode_ToUpper r ∈
      filter (fun x => x = unicode_ToUpper r) (unicode_ToUpper <$> runes text))
      as Hin.
    { apply list_elem_of_filter. split; [reflexivity|].
      apply list_elem_of_fmap. exists r. split; [reflexivity|exact Hr]. }
    apply list_elem_of_lookup in Hin as [i Hi].
    apply lookup_lt_Some in Hi. lia. }
  apply Z.ltb_lt in Hpos. rewrite Hpos in Hk.
  intros Hempty. rewrite Hempty, lookup_empty in Hk. discriminate.
Qed.

End Table.

(** ** The frequency order, letter by letter *)

Lemma isUpper_range k : isUpper k = true -> 65 <= k <= 90.
Proof.
  unfold isUpper. chars. intros [?%Z.leb_le ?%Z.leb_le]%andb_prop. lia.
Qed.

Lemma isLetter_scalar r : isLetter r = true -> scalar r.
Proof.
  unfold isLetter, isUpper, isLower, scalar, MaxRune. chars.
  destruct (Z.leb_spec 65 r), (Z.leb_spec r 90),
    (Z.leb_spec 97 r), (Z.leb_spec r 122); cbn; try discriminate; lia.
Qed.

(** The runes of [lettersOnly] are the letters of the ciphertext. *)
Lemma runes_lettersOnly s :
  runes (Map keepLetters s) = filter (fun r => isLetter r = true) (runes s).
Proof.
  rewrite Map_keepLetters. apply runes_string_of_runes.
  apply Forall_forall. intros r [Hr _]%list_elem_of_filter.
  apply isLetter_scalar, Hr.
Qed.

Lemma letter_count_lettersOnly s :
  letter_count (Map keepLetters s) = letter_count s.
Proof.
  unfold letter_count. rewrite runes_lettersOnly. f_equal. f_equal.
  induction (runes s) as [|r l IH]; [reflexivity|].
  rewrite filter_cons. destruct (decide (isLetter r = true)) as [Hr|Hr].
  - rewrite filter_cons, decide_True by exact Hr. rewrite IH. reflexivity.
  - exact IH.
Qed.

Section Order.
Context {rt : Runtime}.

(** The entries the sort leaves, and the runes written for them. *)
Lemma sorted_pairs freq :
  let sorted := sort_Slice (fun a b => count b <? count a)
      ((fun p => {| letter := p.1; count := p.2 |}) <$> map_range freq) in
  getFrequencyOrder freq = string_of_runes (letter <$> sorted) /\
  letter <$> sorted ≡ₚ (map_to_list freq).*1 /\
  Forall (fun p => freq !! letter p = Some (count p)) sorted.
Proof.
  intros sorted. split; [apply getFrequencyOrder_eq|].
  assert (sorted ≡ₚ (fun p => {| letter := p.1; count := p.2 |})
                      <$> map_to_list freq) as Hp.
  { unfold sorted. rewrite sort_Slice_perm, map_range_perm. reflexivity. }
  split.
  - rewrite Hp, <- list_fmap_compose. reflexivity.
  - rewrite Hp. apply Forall_fmap, Forall_forall.
    intros [k n] Hkn%elem_of_map_to_list. exact Hkn.
Qed.

Lemma getFrequencyOrder_runes freq :
  map_Forall (fun k _ => isUpper k = true) freq ->
  runes (getFrequencyOrder freq) =
    letter <$> sort_Slice (fun a b => count b <? count a)
      ((fun p => {| letter := p.1; count := p.2 |}) <$> map_range freq).
Proof.
  intros Hkeys. destruct (sorted_pairs freq) as (-> & _ & Hall).
  apply runes_string_of_runes, Forall_fmap.
  eapply Forall_impl; [exact Hall|]. intros p Hp. cbn.
  apply isLetter_scalar. unfold isLetter.
  rewrite (Hkeys _ _ Hp). reflexivity.
Qed.

Lemma getFrequencyOrder_len freq :
  map_Forall (fun k _ => isUpper k = true) freq ->
  len (getFrequencyOrder freq) = Z.of_nat (size freq).
Proof.
  intros Hkeys. destruct (sorted_pairs freq) as (-> & Hperm & Hall).
  unfold len. f_equal. rewrite string_of_letters_length.
  - rewrite Hperm, length_fmap. apply length_map_to_list.
  - apply Forall_fmap. eapply Forall_impl; [exact Hall|]. intros p Hp. cbn.
    unfold isLetter. rewrite (Hkeys _ _ Hp). reflexivity.
Qed.

(** A table of upper case letters has at most 26 entries. *)
Lemma table_size (freq : gmap Z Z) :
  map_Forall (fun k _ => isUpper k = true) freq -> (size freq <= 26)%nat.
Proof.
  intros Hkeys. rewrite <- length_map_to_list, <- (length_fmap fst).
  change 26%nat with (Z.to_nat 26). rewrite <- (length_seqZ 65 26).
  apply submseteq_length, NoDup_submseteq; [apply NoDup_fst_map_to_list|].
  intros k [[k' n] [-> Hkn%elem_of_map_to_list]]%list_elem_of_fmap.
  apply Hkeys, isUpper_range in Hkn. cbn. apply elem_of_seqZ. lia.
Qed.

(** X13.  The frequency table holds [n] for [k] exactly when [k] is an
    upper case letter and [n], which is not zero, is the number of
    characters of the text whose upper case is [k]; a letter that does not
    occur has no entry. *)
Theorem frequency_table (text : string) (k n : Z) :
  calculateFrequencies text !! k = Some n <->
  isUpper k = true /\ 0 < n /\
  n = occurrences k (unicode_ToUpper <$> runes text).
Proof.
  rewrite calculateFrequencies_lookup.
  destruct (isUpper k); cbn [andb].
  - destruct (Z.ltb_spec 0 (occurrences k (unicode_ToUpper <$> runes text)))
      as [Hpos|Hle].
    + split; [intros [= <-]; auto|]. intros (_ & _ & ->). reflexivity.
    + split; [discriminate|]. intros (_ & Hn & ->). lia.
  - split; [discriminate|]. intros [? _]. discriminate.
Qed.

(** X14.  For a table whose keys are upper case letters, the frequency
    order holds every key of the table once and nothing else, in as many
    bytes as the table has entries. *)
Theorem frequency_order_letters (freq : gmap Z Z) :
  map_Forall (fun k _ => isUpper k = true) freq ->
  runes (getFrequencyOrder freq) ≡ₚ (map_to_list freq).*1 /\
  len (getFrequencyOrder freq) = Z.of_nat (size freq).
Proof.
  intros Hkeys. split; [|apply getFrequencyOrder_len, Hkeys].
  rewrite getFrequencyOrder_runes by exact Hkeys.
  apply (sorted_pairs freq).
Qed.

(** X15.  For such a table the letters of the frequency order come in
    falling order of their counts: no letter has a smaller count than a
    letter after it. *)
Theorem frequency_order_sorted (freq : gmap Z Z) :
  map_Forall (fun k _ => isUpper k = true) freq ->
  StronglySorted
    (fun a b => default 0 (freq !! b) <= default 0 (freq !! a))
    (runes (getFrequencyOrder freq)).
Proof.
  intros Hkeys. rewrite getFrequencyOrder_runes by exact Hkeys.
  destruct (sorted_pairs freq) as (_ & _ & Hall).
  pose proof (sort_Slice_sorted
    ((fun p => {| letter := p.1; count := p.2 |}) <$> map_range freq))
    as Hsorted.
  unfold sorted_by in Hsorted. revert Hall.
  induction Hsorted as [|p l Hl IH Hp]; intros Hall; [constructor|].
  apply Forall_cons in Hall as [Hp' Hall]. rewrite fmap_cons.
  constructor; [apply IH, Hall|].
  apply Forall_fmap, Forall_forall. intros q Hq. cbn.
  rewrite Forall_forall in Hp, Hall.
  rewrite Hp', (Hall _ Hq). cbn. apply Z.ltb_ge, Hp, Hq.
Qed.

(** X16.  In the frequency search the frequency order of a ciphertext with
    a letter is never empty, so the test [len(freqOrder) > 0] always
    succeeds there, and it has at most 26 bytes. *)
Theorem frequency_order_size (ciphertext : string) :
  0 < letter_count ciphertext ->
  1 <= len (getFrequencyOrder
              (calculateFrequencies (Map keepLetters ciphertext))) <= 26.
Proof.
  intros Hn. rewrite <- letter_count_lettersOnly in Hn.
  apply calculateFrequencies_nonempty in Hn.
  pose proof (calculateFrequencies_keys (Map keepLetters ciphertext)) as Hkeys.
  rewrite getFrequencyOrder_len by exact Hkeys.
  pose proof (table_size _ Hkeys).
  pose proof (map_size_empty_iff
    (calculateFrequencies (Map keepLetters ciphertext))) as Hs.
  destruct (size (calculateFrequencies (Map keepLetters ciphertext)));
    [|lia].
  destruct Hn. apply Hs. reflexivity.
Qed.

End Order.

Lemma frequency_order_letters_witness :
  map_Forall (fun k (_ : Z) => isUpper k = true)
    (calculateFrequencies (rt := basic_runtime) "Bananas!") /\
  runes (getFrequencyOrder (rt := basic_runtime)
           (calculateFrequencies (rt := basic_runtime) "Bananas!"))
    ≡ₚ (map_to_list
          (calculateFrequencies (rt := basic_runtime) "Bananas!")).*1 /\
  len (getFrequencyOrder (rt := basic_runtime)
         (calculateFrequencies (rt := basic_runtime) "Bananas!"))
    = Z.of_nat (size (calculateFrequencies (rt := basic_runtime) "Bananas!")).
Proof.
  split; [apply (bool_decide_unpack _); vm_compute; reflexivity|].
  apply (frequency_order_letters (rt := basic_runtime)
           (calculateFrequencies (rt := basic_runtime) "Bananas!")).
  apply (bool_decide_unpack _). vm_compute. reflexivity.
Defined.

Lemma frequency_order_sorted_witness :
  map_Forall (fun k (_ : Z) => isUpper k = true)
    (calculateFrequencies (rt := basic_runtime) "Bananas!") /\
  StronglySorted
    (fun a b =>
       default 0 (calculateFrequencies (rt := basic_runtime) "Bananas!" !! b)
       <= default 0
            (calculateFrequencies (rt := basic_runtime) "Bananas!" !! a))
    (runes (getFrequencyOrder (rt := basic_runtime)
              (calculateFrequencies (rt := basic_runtime) "Bananas!"))).
Proof.
  split; [apply (bool_decide_unpack _); vm_compute; reflexivity|].
  apply (frequency_order_sorted (rt := basic_runtime)
           (calculateFrequencies (rt := basic_runtime) "Bananas!")).
  apply (bool_decide_unpack _). vm_compute. reflexivity.
Defined.

Lemma frequency_order_size_witness :
  0 < letter_count "Uryyb, Jbeyq!" /\
  1 <= len (getFrequencyOrder (rt := basic_runtime)
              (calculateFrequencies (rt := basic_runtime)
                 (Map keepLetters "Uryyb, Jbeyq!"))) <= 26.
Proof.
  split; [reflexivity|].
  apply (frequency_order_size (rt := basic_runtime) "Uryyb, Jbeyq!").
  reflexivity.
Defined.

(** ** The candidates of a ciphertext *)

Lemma decipherWithShift_mod text s s' : s mod 26 = s' mod 26 ->
  decipherWithShift text s = decipherWithShift text s'.
Proof.
  intros E. rewrite !decipherWithShift_runes, !normalize_mod, E. reflexivity.
Qed.

(** The candidates of an encoded text are the candidates of the text, in
    another order. *)
Lemma decipher_encoded T s j :
  decipherWithShift (applyCipher T s) j = decipherWithShift T (j - s).
Proof.
  pose proof (normalize_range s). pose proof (normalize_range j).
  pose proof (normalize_range (j - s)).
  rewrite (decipherWithShift_runes (applyCipher T s)), applyCipher_runes.
  rewrite shifted_twice by lia. rewrite decipherWithShift_runes.
  apply shifted_mod; [lia|lia|].
  rewrite !normalize_mod. zrem.
Qed.

(** The first candidate shift of the frequency search. *)
Lemma potentialShifts_of_first c order :
  potentialShifts_of (String c order) =
    (byte_val c - char "E") mod 26
      :: filter (fun x => x <> (byte_val c - char "E") mod 26) (seqZ 0 26).
Proof.
  unfold potentialShifts_of. cbn [app].
  pose proof (normalize_mod (byte_val c - char "E")) as E.
  unfold normalize in E. cbv zeta in E |- *. rewrite E.
  apply (potentialShifts_loop _ _ []).
Qed.

(** Decoding an upper case letter with the shift that the frequency search
    derives from it gives ['E']. *)
Lemma decipher_to_E m : isUpper m = true ->
  decipherWithShift (string_of_runes [m]) ((m - char "E") mod 26)
    = "E"%string.
Proof.
  intros U. pose proof (isUpper_range m U) as Hm.
  rewrite decipherWithShift_runes, runes_string_of_runes.
  2: { constructor; [|constructor]. apply isLetter_scalar.
       unfold isLetter. rewrite U. reflexivity. }
  cbn [fmap list_fmap].
  assert (shift_rune (26 - normalize ((m - char "E") mod 26)) m = 69) as ->;
    [|reflexivity].
  rewrite normalize_mod. unfold shift_rune. chars.
  destruct (Z.leb_spec 65 m), (Z.leb_spec m 90); try lia. cbn [andb]. zrem.
Qed.

Section Searches.
Context {rt : Runtime}.

(** The scores of the candidates of an encoded text. *)
Lemma score_at_encoded T s j :
  score_at (applyCipher T s) j = score_at T ((j - s) mod 26).
Proof.
  unfold score_at. rewrite decipher_encoded. f_equal.
  apply decipherWithShift_mod. rewrite Z.mod_mod by lia. reflexivity.
Qed.

(** Two greatest scores, one among the candidates of a text and one among
    those of its encoding, are equal. *)
Lemma greatest_scores T s k1 k2 :
  0 <= k1 < 26 -> 0 <= k2 < 26 ->
  (forall j, 0 <= j < 26 ->
     float64.ltb (score_at (applyCipher T s) k1)
       (score_at (applyCipher T s) j) = false) ->
  (forall j, 0 <= j < 26 ->
     float64.ltb (score_at T k2) (score_at T j) = false) ->
  score_at (applyCipher T s) k1 = score_at T k2.
Proof.
  intros H1 H2 M1 M2.
  apply float64_facts.ltb_total; try apply score_nonneg.
  - specialize (M1 ((k2 + s) mod 26)).
    rewrite (score_at_encoded T s ((k2 + s) mod 26)) in M1.
    replace (((k2 + s) mod 26 - s) mod 26) with k2 in M1 by zrem.
    apply M1. zrem.
  - rewrite score_at_encoded. apply M2. zrem.
Qed.

Lemma brute_force_max ciphertext :
  exists k,
    breakCipherBruteForce ciphertext = (decipherWithShift ciphertext k, k) /\
    0 <= k < 26 /\
    forall j, 0 <= j < 26 ->
      float64.ltb (score_at ciphertext k) (score_at ciphertext j) = false.
Proof.
  destruct (brute_force_spec ciphertext) as (k & Hk & Hm). exists k.
  split; [exact Hk|]. split.
  - apply first_max_elem, elem_of_seqZ in Hm. lia.
  - intros j Hj. eapply first_max_greatest; [exact Hm|].
    apply elem_of_seqZ. lia.
Qed.

(** X17.  The frequency search on a ciphertext with five letters or more:
    [m] is a letter of the frequency table that no letter outnumbers, the
    preferred shift [e], which decodes [m] to ['E'], is tried first and
    then the other shifts in ascending order, and the result is the
    candidate of the first shift in that order with the greatest score. *)
Theorem frequency_search_order (ciphertext : string) :
  5 <= letter_count ciphertext ->
  exists m n e k,
    calculateFrequencies (Map keepLetters ciphertext) !! m = Some n /\
    (forall m' n',
       calculateFrequencies (Map keepLetters ciphertext) !! m' = Some n' ->
       n' <= n) /\
    e = (m - char "E") mod 26 /\
    decipherWithShift (string_of_runes [m]) e = "E"%string /\
    breakCipherFrequencyAnalysis ciphertext
      = (decipherWithShift ciphertext k, k) /\
    first_max (score_at ciphertext)
      (e :: filter (fun x => x <> e) (seqZ 0 26)) k.
Proof.
  intros Hn.
  pose proof (calculateFrequencies_keys (Map keepLetters ciphertext)) as Hkeys.
  assert (calculateFrequencies (Map keepLetters ciphertext) <> ∅) as Hne.
  { apply calculateFrequencies_nonempty.
    rewrite letter_count_lettersOnly. lia. }
  pose proof (getFrequencyOrder_len _ Hkeys) as Hlen.
  unfold breakCipherFrequencyAnalysis. rewrite len_lettersOnly.
  destruct (Z.ltb_spec (letter_count ciphertext) 5) as [|_]; [lia|].
  destruct (getFrequencyOrder _) as [|c rest] eqn:E.
  { destruct Hne. apply map_size_empty_iff.
    change (len EmptyString) with 0 in Hlen. lia. }
  destruct (getFrequencyOrder_first _ c rest Hkeys E) as (n & Hm & Hmax).
  exists (byte_val c), n, ((byte_val c - char "E") mod 26).
  rewrite potentialShifts_of_first.
  destruct (search_spec ciphertext
    ((byte_val c - char "E") mod 26
       :: filter (fun x => x <> (byte_val c - char "E") mod 26) (seqZ 0 26)))
    as (k & Hk & Hfirst); [discriminate|].
  exists k. rewrite Hk. repeat split; try assumption.
  apply decipher_to_E. exact (Hkeys _ _ Hm).
Qed.

(** X18.  If one shift scores strictly above every other shift, both
    searches return that shift with its candidate, and the test of [main]
    finds that the two methods agree. *)
Theorem unique_best_agreement (ciphertext : string) (k : Z) :
  0 <= k < 26 ->
  forallb (fun j => (j =? k) ||
             float64.ltb (score_at ciphertext j) (score_at ciphertext k))
    (seqZ 0 26) = true ->
  breakCipherBruteForce ciphertext = (decipherWithShift ciphertext k, k) /\
  breakCipherFrequencyAnalysis ciphertext
    = (decipherWithShift ciphertext k, k) /\
  main_same_shift ciphertext = true.
Proof.
  intros Hk Hall. rewrite forallb_forall in Hall. unfold main_same_shift.
  assert (forall k', 0 <= k' < 26 ->
            float64.ltb (score_at ciphertext k') (score_at ciphertext k)
              = false -> k' = k) as Huniq.
  { intros k' Hk' Hle. specialize (Hall k').
    rewrite Hle, orb_false_r in Hall. apply Z.eqb_eq, Hall.
    apply list_elem_of_In, elem_of_seqZ. lia. }
  destruct (brute_force_max ciphertext) as (k1 & -> & Hk1 & Hmax1).
  destruct (frequency_spec ciphertext) as (k2 & -> & Hk2 & Hmax2).
  rewrite (Huniq k1 Hk1 (Hmax1 k Hk)), (Huniq k2 Hk2 (Hmax2 k Hk)).
  repeat split. apply Z.eqb_refl.
Qed.

(** X19.  The greatest score does not depend on the shift a text was
    encoded with: each search returns for the encoding of a text a
    plaintext with the score of the plaintext it returns for the text
    itself. *)
Theorem best_score_shift_invariant (T : string) (s : Z) :
  scoreDecipheredText (breakCipherBruteForce (applyCipher T s)).1
    = scoreDecipheredText (breakCipherBruteForce T).1 /\
  scoreDecipheredText (breakCipherFrequencyAnalysis (applyCipher T s)).1
    = scoreDecipheredText (breakCipherFrequencyAnalysis T).1.
Proof.
  split.
  - destruct (brute_force_max (applyCipher T s)) as (k1 & -> & H1 & M1).
    destruct (brute_force_max T) as (k2 & -> & H2 & M2).
    apply (greatest_scores T s k1 k2); assumption.
  - destruct (frequency_spec (applyCipher T s)) as (k1 & -> & H1 & M1).
    destruct (frequency_spec T) as (k2 & -> & H2 & M2).
    apply (greatest_scores T s k1 k2); assumption.
Qed.

(** X20.  On the encoding of a well-formed text no search returns a
    plaintext that scores below the text itself. *)
Theorem plaintext_score_reached (T : string) (s : Z) :
  ValidString T = true ->
  float64.ltb
    (scoreDecipheredText (breakCipherBruteForce (applyCipher T s)).1)
    (scoreDecipheredText T) = false /\
  float64.ltb
    (scoreDecipheredText (breakCipherFrequencyAnalysis (applyCipher T s)).1)
    (scoreDecipheredText T) = false.
Proof.
  intros Hv.
  assert (score_at (applyCipher T s) (s mod 26) = scoreDecipheredText T)
    as <-.
  { unfold score_at. f_equal.
    rewrite (decipherWithShift_mod _ (s mod 26) s)
      by (rewrite Z.mod_mod by lia; reflexivity).
    apply decipher_applyCipher, Hv. }
  assert (0 <= s mod 26 < 26) as Hs by zrem.
  split.
  - destruct (brute_force_max (applyCipher T s)) as (k & -> & _ & M).
    apply M, Hs.
  - destruct (frequency_spec (applyCipher T s)) as (k & -> & _ & M).
    apply M, Hs.
Qed.

End Searches.

Lemma frequency_search_order_witness :
  5 <= letter_count "Wkh txlfn eurzq ira" /\
  exists m n e k,
    calculateFrequencies (rt := basic_runtime)
      (Map keepLetters "Wkh txlfn eurzq ira") !! m = Some n /\
    (forall m' n',
       calculateFrequencies (rt := basic_runtime)
         (Map keepLetters "Wkh txlfn eurzq ira") !! m' = Some n' ->
       n' <= n) /\
    e = (m - char "E") mod 26 /\
    decipherWithShift (string_of_runes [m]) e = "E"%string /\
    breakCipherFrequencyAnalysis (rt := basic_runtime) "Wkh txlfn eurzq ira"
      = (decipherWithShift "Wkh txlfn eurzq ira" k, k) /\
    first_max (score_at (rt := basic_runtime) "Wkh txlfn eurzq ira")
      (e :: filter (fun x => x <> e) (seqZ 0 26)) k.
Proof.
  split; [vm_compute; discriminate|].
  apply (frequency_search_order (rt := basic_runtime) "Wkh txlfn eurzq ira").
  vm_compute. discriminate.
Defined.

Lemma unique_best_agreement_witness :
  0 <= 3 < 26 /\
  forallb (fun j => (j =? 3) ||
             float64.ltb
               (score_at (rt := basic_runtime) "Wkh txlfn eurzq ira" j)
               (score_at (rt := basic_runtime) "Wkh txlfn eurzq ira" 3))
    (seqZ 0 26) = true /\
  breakCipherBruteForce (rt := basic_runtime) "Wkh txlfn eurzq ira"
    = (decipherWithShift "Wkh txlfn eurzq ira" 3, 3) /\
  breakCipherFrequencyAnalysis (rt := basic_runtime) "Wkh txlfn eurzq ira"
    = (decipherWithShift "Wkh txlfn eurzq ira" 3, 3) /\
  main_same_shift (rt := basic_runtime) "Wkh txlfn eurzq ira" = true.
Proof.
  split; [lia|]. split; [vm_compute; reflexivity|].
  apply (unique_best_agreement (rt := basic_runtime) "Wkh txlfn eurzq ira" 3);
    [lia|vm_compute; reflexivity].
Defined.

Lemma plaintext_score_reached_witness :
  ValidString "to be or not to be" = true /\
  float64.ltb
    (scoreDecipheredText (rt := basic_runtime)
       (breakCipherBruteForce (rt := basic_runtime)
          (applyCipher "to be or not to be" 13)).1)
    (scoreDecipheredText (rt := basic_runtime) "to be or not to be") = false /\
  float64.ltb
    (scoreDecipheredText (rt := basic_runtime)
       (breakCipherFrequencyAnalysis (rt := basic_runtime)
          (applyCipher "to be or not to be" 13)).1)
    (scoreDecipheredText (rt := basic_runtime) "to be or not to be") = false.
Proof.
  split; [reflexivity|].
  apply (plaintext_score_reached (rt := basic_runtime) "to be or not to be" 13).
  reflexivity.
Defined.

(** ** When the two searches agree *)

(** On a letter, shifts with different residues give different runes. *)
Lemma shift_rune_inj a b r : 0 <= a -> 0 <= b -> isLetter r = true ->
  shift_rune a r = shift_rune b r -> a mod 26 = b mod 26.
Proof.
  intros Ha Hb. unfold isLetter, isUpper, isLower, shift_rune. chars.
  destruct (Z.leb_spec 65 r), (Z.leb_spec r 90); cbn [andb orb];
    intros Hl; try zrem.
  all: destruct (Z.leb_spec 97 r), (Z.leb_spec r 122); cbn [andb] in *;
    try discriminate; zrem.
Qed.

(** Two shifts that decode a text with a letter alike are equal. *)
Lemma decipherWithShift_inj text k k' :
  0 < letter_count text -> 0 <= k < 26 -> 0 <= k' < 26 ->
  decipherWithShift text k = decipherWithShift text k' -> k = k'.
Proof.
  unfold letter_count. intros Hn Hk Hk' E.
  destruct (filter _ (runes text)) as [|r l] eqn:F; [cbn in Hn; lia|].
  assert (r ∈ filter (fun r => isLetter r = true) (runes text)) as Hr
    by (rewrite F; apply list_elem_of_here).
  apply list_elem_of_filter in Hr as [Hl [i Hi]%list_elem_of_lookup].
  apply (f_equal runes) in E. rewrite !runes_decipherWithShift in E.
  apply (f_equal (fun l => l !! i)) in E.
  rewrite !list_lookup_fmap, Hi in E. cbn in E. injection E as E.
  pose proof (normalize_range k). pose proof (normalize_range k').
  apply shift_rune_inj in E; [|lia|lia|exact Hl].
  rewrite !normalize_mod in *. zrem.
Qed.

Section Agreement.
Context {rt : Runtime}.

(** X21.  The test of [main] succeeds, that is the two searches return the
    same shift, exactly when they return the same plaintext. *)
Theorem same_shift_iff_same_plaintext (ciphertext : string) :
  main_same_shift ciphertext = true <->
  (breakCipherBruteForce ciphertext).1
    = (breakCipherFrequencyAnalysis ciphertext).1.
Proof.
  unfold main_same_shift.
  destruct (Z.ltb_spec (letter_count ciphertext) 5) as [Hshort|Hlong].
  { assert (breakCipherFrequencyAnalysis ciphertext
              = breakCipherBruteForce ciphertext) as ->.
    { unfold breakCipherFrequencyAnalysis. rewrite len_lettersOnly.
      destruct (Z.ltb_spec (letter_count ciphertext) 5); [reflexivity|lia]. }
    destruct (breakCipherBruteForce ciphertext) as [p k].
    rewrite Z.eqb_refl. tauto. }
  destruct (brute_force_max ciphertext) as (k & -> & Hk & _).
  destruct (frequency_spec ciphertext) as (k' & -> & Hk' & _).
  cbn [fst]. rewrite Z.eqb_eq. split; [intros ->; reflexivity|].
  apply decipherWithShift_inj; [lia|exact Hk|exact Hk'].
Qed.

End Agreement.

(** ** The counts of the table add up *)

Lemma indicator_sum (x : Z) (ks : list Z) : NoDup ks -> x ∈ ks ->
  foldr (fun k acc => (if decide (x = k) then 1 else 0) + acc) 0 ks = 1.
Proof.
  induction 1 as [|k ks Hk Hnd IH]; [intros []%elem_of_nil|].
  cbn [foldr]. intros [->|Hx]%elem_of_cons.
  - rewrite decide_True by reflexivity.
    assert (foldr (fun k0 acc => (if decide (k = k0) then 1 else 0) + acc)
              0 ks = 0) as ->; [|reflexivity].
    clear IH Hnd. induction ks as [|y ks IH]; [reflexivity|].
    cbn [foldr]. rewrite not_elem_of_cons in Hk. destruct Hk as [Hy Hk].
    rewrite decide_False by exact Hy. rewrite IH by exact Hk. reflexivity.
  - rewrite decide_False by (intros ->; contradiction).
    rewrite IH by exact Hx. reflexivity.
Qed.

Lemma occurrences_sum ks l : NoDup ks -> Forall (fun x => x ∈ ks) l ->
  foldr (fun k acc => occurrences k l + acc) 0 ks = Z.of_nat (length l).
Proof.
  intros Hnd. induction 1 as [|x l Hx _ IH].
  - clear Hnd. induction ks as [|k ks IHk]; [reflexivity|].
    cbn [foldr]. rewrite IHk. reflexivity.
  - assert (foldr (fun k acc => occurrences k (x :: l) + acc) 0 ks
            = foldr (fun k acc => (if decide (x = k) then 1 else 0) + acc) 0 ks
              + foldr (fun k acc => occurrences k l + acc) 0 ks) as ->.
    { clear. induction ks as [|k ks IHk]; [reflexivity|].
      cbn [foldr]. rewrite occurrences_cons, IHk. lia. }
    rewrite indicator_sum, IH by assumption. cbn [length]. lia.
Qed.

Lemma sum_ext (f g : Z -> Z) ks : Forall (fun k => f k = g k) ks ->
  foldr (fun k acc => f k + acc) 0 ks = foldr (fun k acc => g k + acc) 0 ks.
Proof.
  induction 1 as [|k ks Hk _ IH]; [reflexivity|].
  cbn [foldr]. rewrite Hk, IH. reflexivity.
Qed.

Lemma filter_all {A} (P : A -> Prop) `{forall x, Decision (P x)} (l : list A) :
  Forall P l -> filter P l = l.
Proof.
  induction 1 as [|x l Hx _ IH]; [reflexivity|].
  rewrite filter_cons, decide_True by exact Hx. rewrite IH. reflexivity.
Qed.

Section Totals.
Context {rt : Runtime}.

(** X22.  In the frequency search the counts of the table for the letters
    [A] to [Z] add up to the number of letters of the ciphertext. *)
Theorem frequency_counts_total (ciphertext : string) :
  total_count (calculateFrequencies (Map keepLetters ciphertext))
    = letter_count ciphertext.
Proof.
  rewrite <- letter_count_lettersOnly.
  set (text := Map keepLetters ciphertext).
  assert (Forall (fun r => isLetter r = true) (runes text)) as Hall.
  { unfold text. rewrite runes_lettersOnly. apply Forall_forall.
    intros r [Hr _]%list_elem_of_filter. exact Hr. }
  unfold letter_count. rewrite filter_all by exact Hall.
  rewrite <- (length_fmap unicode_ToUpper).
  rewrite <- (occurrences_sum (seqZ (char "A") 26));
    [|apply NoDup_seqZ|].
  - unfold total_count. apply sum_ext, Forall_forall.
    intros k Hk%elem_of_seqZ. rewrite calculateFrequencies_lookup.
    assert (isUpper k = true) as ->.
    { unfold isUpper. revert Hk. chars. intros Hk.
      apply andb_true_intro. split; apply Z.leb_le; lia. }
    cbn [andb].
    pose proof (occurrences_nonneg k (unicode_ToUpper <$> runes text)).
    destruct (Z.ltb_spec 0 (occurrences k (unicode_ToUpper <$> runes text)));
      cbv [default from_option id]; lia.
  - apply Forall_fmap. eapply Forall_impl; [exact Hall|].
    intros r Hr. cbn. apply ToUpper_letter, isUpper_range in Hr.
    apply elem_of_seqZ. chars. lia.
Qed.

End Totals.

(** ** Upper case on ASCII *)

Lemma ascii_ToUpper_range x : 0 <= x < 128 ->
  0 <= ascii_ToUpper x < 128 /\
  ascii_ToUpper (ascii_ToUpper x) = ascii_ToUpper x.
Proof.
  intros Hx. unfold ascii_ToUpper. chars.
  destruct (Z.leb_spec 97 x), (Z.leb_spec x 122); cbn [andb].
  1: destruct (Z.leb_spec 97 (x - 32)), (Z.leb_spec (x - 32) 122);
       cbn [andb]; lia.
  all: destruct (Z.leb_spec 97 x), (Z.leb_spec x 122); cbn [andb]; lia.
Qed.

Lemma upper_byte_val c : byte_val c < 128 ->
  byte_val (byte_of (ascii_ToUpper (byte_val c))) = ascii_ToUpper (byte_val c).
Proof.
  intros Hc. pose proof (byte_val_range c).
  pose proof (ascii_ToUpper_range (byte_val c)). apply byte_val_of. lia.
Qed.

(** No byte but the space becomes a space. *)
Lemma upper_byte_space c : byte_val c < 128 ->
  Ascii.eqb (byte_of (ascii_ToUpper (byte_val c))) " " = Ascii.eqb c " ".
Proof.
  intros Hc. pose proof (byte_val_range c) as Hr.
  destruct (Ascii.eqb_spec c " ") as [->|Hne]; [reflexivity|].
  apply Ascii.eqb_neq. intros E. apply Hne.
  apply (f_equal byte_val) in E. rewrite upper_byte_val in E by exact Hc.
  change (byte_val " ") with 32 in E.
  assert (byte_val c = 32) as Hv.
  { revert E. unfold ascii_ToUpper. chars.
    destruct (Z.leb_spec 97 (byte_val c)), (Z.leb_spec (byte_val c) 122);
      cbn [andb]; lia. }
  rewrite <- (byte_of_val c), Hv. reflexivity.
Qed.

Lemma upper_bytes_ascii s : isASCII s = true -> isASCII (upper_bytes s) = true.
Proof.
  induction s as [|c s IH]; [reflexivity|].
  cbn [isASCII upper_bytes]. intros [Hc%Z.ltb_lt Hs]%andb_prop.
  change RuneSelf with 128 in *.
  rewrite upper_byte_val by exact Hc. rewrite IH by exact Hs.
  pose proof (byte_val_range c).
  pose proof (ascii_ToUpper_range (byte_val c)).
  apply andb_true_intro. split; [apply Z.ltb_lt; lia|reflexivity].
Qed.

Lemma upper_bytes_idem s : isASCII s = true ->
  upper_bytes (upper_bytes s) = upper_bytes s.
Proof.
  induction s as [|c s IH]; [reflexivity|].
  cbn [isASCII upper_bytes]. intros [Hc%Z.ltb_lt Hs]%andb_prop.
  change RuneSelf with 128 in *.
  rewrite upper_byte_val by exact Hc. rewrite IH by exact Hs.
  pose proof (byte_val_range c).
  destruct (ascii_ToUpper_range (byte_val c)) as [_ ->]; [lia|reflexivity].
Qed.

Lemma upper_bytes_Count s : isASCII s = true ->
  Count (upper_bytes s) " " = Count s " ".
Proof.
  induction s as [|c s IH]; [reflexivity|].
  cbn [isASCII upper_bytes Count]. intros [Hc%Z.ltb_lt Hs]%andb_prop.
  change RuneSelf with 128 in *.
  rewrite upper_byte_space by exact Hc. rewrite IH by exact Hs. reflexivity.
Qed.

Lemma upper_bytes_len s : len (upper_bytes s) = len s.
Proof.
  unfold len. f_equal. induction s as [|c s IH]; [reflexivity|].
  cbn [upper_bytes String.length]. rewrite IH. reflexivity.
Qed.

Section UpperCase.
Context {rt : Runtime}.

(** On a text of ASCII bytes [strings.ToUpper] works byte by byte. *)
Lemma ToUpper_upper_bytes s : isASCII s = true -> ToUpper s = upper_bytes s.
Proof.
  unfold ToUpper, Map, runes.
  induction s as [|c s IH]; [reflexivity|].
  cbn [isASCII upper_bytes]. intros [Hc%Z.ltb_lt Hs]%andb_prop.
  change RuneSelf with 128 in *. pose proof (byte_val_range c) as Hr.
  rewrite chunks_1 by (change 0x80 with 128; exact Hc).
  cbn [fmap list_fmap fst].
  rewrite unicode_ToUpper_ascii by (change RuneSelf with 128; lia).
  fold (ascii_ToUpper (byte_val c)).
  pose proof (ascii_ToUpper_range (byte_val c)) as [Hu _]; [lia|].
  rewrite filter_cons, decide_True by lia.
  rewrite string_of_runes_cons.
  destruct (encode_1 (ascii_ToUpper (byte_val c))) as [_ ->];
    [change 0x80 with 128; lia|].
  rewrite append_String, append_empty. f_equal. apply IH, Hs.
Qed.

(** X23.  On a text of ASCII bytes letter case matters neither to the
    frequency table nor to the score: the upper-cased text has the table
    and the score of the text. *)
Theorem case_insensitive (text : string) :
  isASCII text = true ->
  calculateFrequencies (ToUpper text) = calculateFrequencies text /\
  scoreDecipheredText (ToUpper text) = scoreDecipheredText text.
Proof.
  intros Ha.
  assert (ToUpper (ToUpper text) = ToUpper text) as Hidem.
  { rewrite (ToUpper_upper_bytes text Ha).
    rewrite ToUpper_upper_bytes by (apply upper_bytes_ascii, Ha).
    apply upper_bytes_idem, Ha. }
  split.
  - unfold calculateFrequencies. rewrite Hidem. reflexivity.
  - assert (Count (ToUpper text) " " = Count text " ") as Hcount
      by (rewrite ToUpper_upper_bytes by exact Ha;
          apply upper_bytes_Count, Ha).
    assert (len (ToUpper text) = len text) as Hlen
      by (rewrite ToUpper_upper_bytes by exact Ha; apply upper_bytes_len).
    unfold scoreDecipheredText. rewrite Hidem, Hcount, Hlen. reflexivity.
Qed.

End UpperCase.

Lemma case_insensitive_witness :
  isASCII "The cat and the hat" = true /\
  calculateFrequencies (rt := basic_runtime)
    (ToUpper (rt := basic_runtime) "The cat and the hat")
    = calculateFrequencies (rt := basic_runtime) "The cat and the hat" /\
  scoreDecipheredText (rt := basic_runtime)
    (ToUpper (rt := basic_runtime) "The cat and the hat")
    = scoreDecipheredText (rt := basic_runtime) "The cat and the hat".
Proof.
  split; [reflexivity|].
  apply (case_insensitive (rt := basic_runtime) "The cat and the hat").
  reflexivity.
Defined.

(** ** A ciphertext without letters *)

Lemma no_letters s :
  letter_count s = 0 -> Forall (fun r => isLetter r = false) (runes s).
Proof.
  unfold letter_count. induction (runes s) as [|r l IH]; [constructor|].
  rewrite filter_cons. destruct (isLetter r) eqn:E.
  - rewrite decide_True by reflexivity. cbn [length]. lia.
  - rewrite decide_False by discriminate. intros Hl.
    constructor; [exact E|apply IH, Hl].
Qed.

(** Every candidate of such a text is the text as the encoder writes it
    for the shift zero. *)
Lemma no_letters_candidate s j :
  letter_count s = 0 -> decipherWithShift s j = applyCipher s 0.
Proof.
  intros Hn%no_letters.
  rewrite decipherWithShift_runes, applyCipher_runes. f_equal.
  apply Forall_fmap_ext. eapply Forall_impl; [exact Hn|].
  intros r Hr. cbn. rewrite !shift_rune_other by exact Hr. reflexivity.
Qed.

(** ** The shifts after the preferred one *)

Lemma sorted_filter (P : Z -> Prop) `{forall x, Decision (P x)} l :
  StronglySorted Z.lt l -> StronglySorted Z.lt (filter P l).
Proof.
  induction 1 as [|x l Hl IH Hx]; [constructor|].
  rewrite filter_cons. destruct (decide (P x)); [|exact IH].
  constructor; [exact IH|].
  apply Forall_forall. intros y [_ Hy]%list_elem_of_filter.
  rewrite Forall_forall in Hx. apply Hx, Hy.
Qed.

Lemma seqZ_sorted m n : StronglySorted Z.lt (seqZ m n).
Proof.
  destruct (Z.le_gt_cases n 0) as [Hn|Hn].
  { unfold seqZ. replace (Z.to_nat n) with 0%nat by lia. constructor. }
  rewrite <- (Z2Nat.id n) by lia. generalize (Z.to_nat n). clear.
  intros k. induction k as [|k IH]; [constructor|].
  rewrite seqZ_S. apply StronglySorted_app_2; [|exact IH|repeat constructor].
  intros x y Hx%elem_of_seqZ Hy%list_elem_of_singleton. lia.
Qed.

Section Preferred.
Context {rt : Runtime}.

(** X24.  On a ciphertext without ASCII letters both searches return the
    shift [0] and the ciphertext as the encoder writes it for the shift
    zero, which is the ciphertext itself when it is well-formed. *)
Theorem no_letters_shift_zero (ciphertext : string) :
  letter_count ciphertext = 0 ->
  breakCipherBruteForce ciphertext = (applyCipher ciphertext 0, 0) /\
  breakCipherFrequencyAnalysis ciphertext = (applyCipher ciphertext 0, 0).
Proof.
  intros Hn.
  assert (breakCipherBruteForce ciphertext = (applyCipher ciphertext 0, 0))
    as Hb.
  { destruct (brute_force_spec ciphertext) as (k & -> & Hm).
    rewrite no_letters_candidate by exact Hn. f_equal.
    pose proof (first_max_elem _ _ _ Hm) as Hk%elem_of_seqZ.
    destruct (Z.eq_dec k 0) as [E|E]; [exact E|].
    pose proof (first_max_seqZ ciphertext 26 k 0 Hm) as Hlt.
    unfold score_at in Hlt.
    rewrite !no_letters_candidate in Hlt by exact Hn.
    rewrite float64_facts.ltb_irrefl in Hlt by apply score_nonneg.
    discriminate Hlt. lia. }
  split; [exact Hb|].
  unfold breakCipherFrequencyAnalysis. rewrite len_lettersOnly, Hn.
  exact Hb.
Qed.

(** X25.  How the two searches differ on a ciphertext with five letters or
    more: with [e] the shift the frequency search tries first and [kb] the
    shift the exhaustive search returns, the frequency search returns [e]
    when [e] reaches the greatest score, and [kb] otherwise. *)
Theorem frequency_search_result (ciphertext : string) :
  5 <= letter_count ciphertext ->
  exists e rest kb,
    potentialShifts_of
      (getFrequencyOrder (calculateFrequencies (Map keepLetters ciphertext)))
      = e :: rest /\
    breakCipherBruteForce ciphertext
      = (decipherWithShift ciphertext kb, kb) /\
    breakCipherFrequencyAnalysis ciphertext
      = if float64.ltb (score_at ciphertext e) (score_at ciphertext kb)
        then (decipherWithShift ciphertext kb, kb)
        else (decipherWithShift ciphertext e, e).
Proof.
  intros Hn.
  destruct (brute_force_spec ciphertext) as (kb & Hb & Hmb).
  pose proof (first_max_elem _ _ _ Hmb) as Hkb.
  unfold breakCipherFrequencyAnalysis. rewrite len_lettersOnly.
  destruct (Z.ltb_spec (letter_count ciphertext) 5) as [|_]; [lia|].
  set (l := potentialShifts_of _).
  assert (exists e, 0 <= e < 26 /\
            l = e :: filter (fun x => x <> e) (seqZ 0 26)) as (e & He & Hl).
  { unfold l. destruct (getFrequencyOrder _) as [|c order].
    - exists 0. split; [lia|]. reflexivity.
    - apply potentialShifts_of_cons. }
  exists e, (filter (fun x => x <> e) (seqZ 0 26)), kb.
  split; [exact Hl|]. split; [exact Hb|].
  destruct (search_spec ciphertext l) as (k & -> & Hm);
    [rewrite Hl; discriminate|].
  assert (score_at ciphertext k = score_at ciphertext kb) as Heq.
  { apply float64_facts.ltb_total; try apply score_nonneg.
    - eapply first_max_greatest; [exact Hm|].
      rewrite Hl, elem_of_cons, list_elem_of_filter.
      destruct (Z.eq_dec kb e); [left; assumption|right; tauto].
    - eapply first_max_greatest; [exact Hmb|].
      apply first_max_elem in Hm.
      rewrite Hl, elem_of_cons, list_elem_of_filter in Hm.
      destruct Hm as [->|[_ Hm]]; [apply elem_of_seqZ; lia|exact Hm]. }
  destruct Hm as (l1 & l2 & Hsplit & Hbefore & Hafter).
  rewrite Hl in Hsplit. destruct l1 as [|x l1].
  { injection Hsplit as <- _. rewrite <- Heq.
    rewrite float64_facts.ltb_irrefl by apply score_nonneg. reflexivity. }
  injection Hsplit as <- Hsplit.
  rewrite <- Heq, (Hbefore e) by apply list_elem_of_here.
  enough (k = kb) as -> by reflexivity.
  assert (k ∈ seqZ 0 26 /\ k <> e) as [Hk Hke].
  { assert (k ∈ filter (fun x => x <> e) (seqZ 0 26)) as Hin
      by (rewrite Hsplit; apply elem_of_app; right; apply list_elem_of_here).
    apply list_elem_of_filter in Hin. tauto. }
  assert (kb <> e) as Hkbe.
  { intros ->. specialize (Hbefore e (list_elem_of_here _ _)).
    rewrite Heq, float64_facts.ltb_irrefl in Hbefore by apply score_nonneg.
    discriminate. }
  assert (kb ∈ l1 ++ k :: l2) as Hin.
  { rewrite <- Hsplit. apply list_elem_of_filter. tauto. }
  apply elem_of_seqZ in Hk, Hkb.
  apply elem_of_app in Hin as [Hin|[->|Hin]%elem_of_cons];
    [|reflexivity|].
  - specialize (Hbefore kb). rewrite Heq in Hbefore.
    rewrite float64_facts.ltb_irrefl in Hbefore by apply score_nonneg.
    discriminate Hbefore. apply elem_of_cons. right. exact Hin.
  - pose proof (sorted_filter (fun x => x <> e) _ (seqZ_sorted 0 26))
      as Hsorted.
    rewrite Hsplit in Hsorted. apply StronglySorted_app_1_r in Hsorted.
    apply StronglySorted_inv in Hsorted as [_ Hall].
    rewrite Forall_forall in Hall. specialize (Hall kb Hin).
    pose proof (first_max_seqZ ciphertext 26 kb k Hmb) as Hlt.
    rewrite Heq, float64_facts.ltb_irrefl in Hlt by apply score_nonneg.
    discriminate Hlt. lia.
Qed.

End Preferred.

Lemma no_letters_shift_zero_witness :
  letter_count "1234 + 5678 = ?" = 0 /\
  breakCipherBruteForce (rt := basic_runtime) "1234 + 5678 = ?"
    = (applyCipher "1234 + 5678 = ?" 0, 0) /\
  breakCipherFrequencyAnalysis (rt := basic_runtime) "1234 + 5678 = ?"
    = (applyCipher "1234 + 5678 = ?" 0, 0).
Proof.
  split; [reflexivity|].
  apply (no_letters_shift_zero (rt := basic_runtime) "1234 + 5678 = ?").
  reflexivity.
Defined.

Lemma frequency_search_result_witness :
  5 <= letter_count "Wkh txlfn eurzq ira" /\
  exists e rest kb,
    potentialShifts_of
      (getFrequencyOrder (rt := basic_runtime)
         (calculateFrequencies (rt := basic_runtime)
            (Map keepLetters "Wkh txlfn eurzq ira")))
      = e :: rest /\
    breakCipherBruteForce (rt := basic_runtime) "Wkh txlfn eurzq ira"
      = (decipherWithShift "Wkh txlfn eurzq ira" kb, kb) /\
    breakCipherFrequencyAnalysis (rt := basic_runtime) "Wkh txlfn eurzq ira"
      = if float64.ltb
             (score_at (rt := basic_runtime) "Wkh txlfn eurzq ira" e)
             (score_at (rt := basic_runtime) "Wkh txlfn eurzq ira" kb)
        then (decipherWithShift "Wkh txlfn eurzq ira" kb, kb)
        else (decipherWithShift "Wkh txlfn eurzq ira" e, e).
Proof.
  split; [vm_compute; discriminate|].
  apply (frequency_search_result (rt := basic_runtime) "Wkh txlfn eurzq ira").
  vm_compute. discriminate.
Defined.
